(** * Data-label oxml objects of python-pptx ([pptx/oxml/chart/datalabel.py])

    A shallow embedding of [CT_DLbl] and [CT_DLbls] over a small model of
    the lxml element tree, and the properties of the indexed insertion of
    [c:dLbl] children, of the rich-text toggling of [c:tx] and of the
    default subtree. *)

From Stdlib Require Import List String ZArith Lia Bool Arith.
From Stdlib Require Import Sorted Permutation DecimalString DecimalPos DecimalZ.
Import ListNotations.

Open Scope string_scope.
Open Scope list_scope.

(** ** The element tree

    An lxml element: a tag, its attributes and its child elements in
    document order.  Tags are written with their namespace prefix, as the
    source writes them.  A child is designated by its position among the
    children of its parent. *)

#[warnings="-register-all"]
Inductive element : Type :=
  Element { tag : string;
            attrib : list (string * string);
            children : list element }.

Definition OxmlElement (nsptag : string) : element := Element nsptag [] [].

Definition set_children (cs : list element) (e : element) : element :=
  Element (tag e) (attrib e) cs.

(** *** Attributes: [e.get(name)] and [e.set(name, value)] *)

Fixpoint assoc (name : string) (l : list (string * string)) : option string :=
  match l with
  | [] => None
  | (k, v) :: l' => if k =? name then Some v else assoc name l'
  end.

Fixpoint assoc_set (name value : string) (l : list (string * string))
  : list (string * string) :=
  match l with
  | [] => [(name, value)]
  | (k, v) :: l' =>
      if k =? name then (k, value) :: l' else (k, v) :: assoc_set name value l'
  end.

Definition get (name : string) (e : element) : option string :=
  assoc name (attrib e).

Definition set (name value : string) (e : element) : element :=
  Element (tag e) (assoc_set name value (attrib e)) (children e).

(** *** Children: [find], [findall], [insert], [append], [remove],
    [addprevious], [addnext] *)

Definition has_tag (nsptag : string) (e : element) : bool := tag e =? nsptag.

Fixpoint findall_from (n : nat) (nsptag : string) (cs : list element)
  : list (nat * element) :=
  match cs with
  | [] => []
  | c :: cs' =>
      if has_tag nsptag c
      then (n, c) :: findall_from (S n) nsptag cs'
      else findall_from (S n) nsptag cs'
  end.

Definition findall (nsptag : string) (e : element) : list (nat * element) :=
  findall_from 0 nsptag (children e).

Definition find (nsptag : string) (e : element) : option (nat * element) :=
  hd_error (findall nsptag e).

Definition splice (p : nat) (new : element) (cs : list element) : list element :=
  firstn p cs ++ new :: skipn p cs.

Definition insert (p : nat) (new : element) (e : element) : element :=
  set_children (splice p new (children e)) e.

Definition append (new : element) (e : element) : element :=
  set_children (children e ++ [new]) e.

(** [child.addprevious(new)] and [child.addnext(new)], for the child at
    position [p] of [e]. *)
Definition addprevious (p : nat) (new : element) (e : element) : element :=
  insert p new e.

Definition addnext (p : nat) (new : element) (e : element) : element :=
  insert (S p) new e.

Definition remove (p : nat) (e : element) : element :=
  set_children (firstn p (children e) ++ skipn (S p) (children e)) e.

(** A child is a live node of the tree: mutating it in place is replacing
    the child at its position. *)
Definition replace_child (p : nat) (c : element) (e : element) : element :=
  set_children (firstn p (children e) ++ c :: skipn (S p) (children e)) e.

(** *** The two XPath shapes the source uses

    [tagname[pred]]: the children with tag [tagname] that satisfy [pred],
    in document order; [has_child] is the nested step [child[pred]]. *)

Definition xpath (nsptag : string) (pred : element -> bool) (e : element)
  : list (nat * element) :=
  filter (fun pc => pred (snd pc)) (findall nsptag e).

Definition has_child (nsptag : string) (pred : element -> bool) (e : element)
  : bool :=
  existsb (fun c => has_tag nsptag c && pred c) (children e).

Definition attr_is (name value : string) (e : element) : bool :=
  match get name e with
  | Some v => v =? value
  | None => false
  end.

(** ** Errors and the state of a method call

    A method either returns or raises; the element it was called on is
    threaded through, so that what a raising call leaves behind is
    visible. *)

Inductive exn : Type :=
| SchemaViolation
| InvalidArgument
| InvalidValue
| NotFound.

Inductive result (A : Type) : Type :=
| Ok (a : A)
| Raise (e : exn).
Arguments Ok {A} a.
Arguments Raise {A} e.

Definition M (A : Type) : Type := element -> result A * element.

Definition ret {A} (a : A) : M A := fun self => (Ok a, self).

Definition bind {A B} (m : M A) (k : A -> M B) : M B :=
  fun self =>
    match m self with
    | (Ok a, self') => k a self'
    | (Raise e, self') => (Raise e, self')
    end.

Definition modify (f : element -> element) : M unit :=
  fun self => (Ok tt, f self).

Notation "x <- m ;; k" := (bind m (fun x => k))
  (at level 61, m at next level, right associativity).
Notation "m ;;; k" := (bind m (fun _ => k))
  (at level 61, right associativity).

(** ** Attribute codecs

    The codec of an integer attribute is supplied from outside this
    module: it is a parameter of everything that reads or writes [c:idx]. *)

Record simple_type : Type :=
  { to_xml : Z -> option string;
    from_xml : string -> option Z }.

(** [ "%d" % idx ] *)
Definition fmt_d (idx : Z) : string := NilZero.string_of_int (Z.to_int idx).

(** The codec writes [i] as its decimal text and reads that text back. *)
Definition codec_ok (st : simple_type) (i : Z) : Prop :=
  to_xml st i = Some (fmt_d i) /\ from_xml st (fmt_d i) = Some i.

(** Modelled from the spec: the boolean attribute codec, which is outside
    this module; the two texts are the ones [_default_xml] uses. *)
Definition bool_to_xml (b : bool) : string := if b then "1" else "0".

Definition bool_from_xml (s : string) : option bool :=
  if (s =? "1") || (s =? "true") then Some true
  else if (s =? "0") || (s =? "false") then Some false
  else None.

(** ** Child descriptors ([xmlchemy])  *)

Inductive descriptor : Type :=
| OneAndOnlyOne (nsptag : string)
| ZeroOrOne (nsptag : string) (successors : list string)
| ZeroOrMore (nsptag : string) (successors : list string).

Definition child_tag (d : descriptor) : string :=
  match d with
  | OneAndOnlyOne t | ZeroOrOne t _ | ZeroOrMore t _ => t
  end.

Definition successors_of (d : descriptor) : option (list string) :=
  match d with
  | OneAndOnlyOne _ => None
  | ZeroOrOne _ s | ZeroOrMore _ s => Some s
  end.

Definition successors (d : descriptor) : list string :=
  match successors_of d with
  | Some s => s
  | None => []
  end.

Definition tag_in (tags : list string) (e : element) : bool :=
  existsb (fun t => tag e =? t) tags.

(** Modelled from the spec: [insert_element_before] of the element base
    class, the placement rule of optional and repeatable children: before
    the first child whose tag is one of [successors], else as last child. *)
Fixpoint first_successor_from (n : nat) (successors : list string)
  (cs : list element) : option nat :=
  match cs with
  | [] => None
  | c :: cs' =>
      if tag_in successors c then Some n
      else first_successor_from (S n) successors cs'
  end.

Definition insert_element_before (new : element) (successors : list string)
  (e : element) : nat * element :=
  match first_successor_from 0 successors (children e) with
  | Some p => (p, addprevious p new e)
  | None => (List.length (children e), append new e)
  end.

(** Modelled from the spec: the accessors a [ZeroOrOne] descriptor
    synthesizes: [get_or_add_x] returns the child if present, else places a
    new one by the rule above; [_remove_x] detaches the children of that
    tag. *)
Definition get_or_add (new : element) (successors : list string) : M nat :=
  fun self =>
    match find (tag new) self with
    | Some (p, _) => (Ok p, self)
    | None =>
        let (p, self') := insert_element_before new successors self in
        (Ok p, self')
    end.

Definition remove_all (nsptag : string) : M unit :=
  modify (fun self =>
    set_children (filter (fun c => negb (has_tag nsptag c)) (children self)) self).

(** Run a method of the child at position [p] and keep its effect on the
    child within the parent. *)
Definition on_child {A} (p : nat) (m : M A) : M A :=
  fun self =>
    match nth_error (children self) p with
    | None => (Raise NotFound, self)
    | Some c => let (r, c') := m c in (r, replace_child p c' self)
    end.

(** ** [CT_DLbl]: the [c:dLbl] element of one data point *)

Module CT_DLbl.

Definition _tag_seq : list string :=
  [ "c:idx"; "c:layout"; "c:tx"; "c:numFmt"; "c:spPr"; "c:txPr";
    "c:dLblPos"; "c:showLegendKey"; "c:showVal"; "c:showCatName";
    "c:showSerName"; "c:showPercent"; "c:showBubbleSize"; "c:separator";
    "c:extLst" ].

Definition idx : descriptor := OneAndOnlyOne "c:idx".
Definition tx : descriptor := ZeroOrOne "c:tx" (skipn 3 _tag_seq).

Definition descriptors : list descriptor := [idx; tx].

Definition get_or_add_tx : M nat :=
  get_or_add (OxmlElement "c:tx") (successors tx).

Section Tx.
(** The default content of a new [c:rich] belongs to the text-body
    model, outside this module. *)
Variable rich_body : list element.

(** Modelled from the spec: the accessors of the [c:tx] element, whose
    class declares [c:strRef] and [c:rich] as optional children with no
    successors. *)
Definition _remove_strRef : M unit := remove_all "c:strRef".

Definition get_or_add_rich : M nat :=
  get_or_add (Element "c:rich" [] rich_body) [].

Definition get_or_add_tx_rich : M nat :=
  tx <- get_or_add_tx ;;
  on_child tx _remove_strRef ;;;
  on_child tx get_or_add_rich ;;;
  ret tx.
End Tx.

Section Idx.
Variable st : simple_type.

(** [self.idx.val]: the required [c:idx] child, then its required
    [val] attribute read through the codec. *)
Definition idx_val (self : element) : result Z :=
  match find "c:idx" self with
  | None => Raise SchemaViolation
  | Some (_, idx) =>
      match get "val" idx with
      | None => Raise SchemaViolation
      | Some s =>
          match from_xml st s with
          | None => Raise InvalidValue
          | Some v => Ok v
          end
      end
  end.

(** [self.idx.val = v] *)
Definition set_idx_val (v : Z) (self : element) : result element :=
  match find "c:idx" self with
  | None => Raise SchemaViolation
  | Some (p, idx) =>
      match to_xml st v with
      | None => Raise InvalidValue
      | Some s => Ok (replace_child p (set "val" s idx) self)
      end
  end.
End Idx.

Definition new_dLbl : element :=
  let dLbl := OxmlElement "c:dLbl" in
  let idx := OxmlElement "c:idx" in
  let showLegendKey := OxmlElement "c:showLegendKey" in
  let showLegendKey := set "val" (bool_to_xml false) showLegendKey in
  let dLbl := append idx dLbl in
  let dLbl := append showLegendKey dLbl in
  dLbl.

Definition remove_tx_rich : M unit :=
  fun self =>
    match xpath "c:tx" (has_child "c:rich" (fun _ => true)) self with
    | [] => (Ok tt, self)
    | (tx, _) :: _ => (Ok tt, remove tx self)
    end.

End CT_DLbl.

(** ** [CT_DLbls]: the [c:dLbls] element of a set of data labels *)

Module CT_DLbls.

Definition _tag_seq : list string :=
  [ "c:dLbl"; "c:numFmt"; "c:spPr"; "c:txPr"; "c:dLblPos";
    "c:showLegendKey"; "c:showVal"; "c:showCatName"; "c:showSerName";
    "c:showPercent"; "c:showBubbleSize"; "c:separator";
    "c:showLeaderLines"; "c:leaderLines"; "c:extLst" ].

Definition dLbl : descriptor := ZeroOrMore "c:dLbl" (skipn 1 _tag_seq).
Definition numFmt : descriptor := ZeroOrOne "c:numFmt" (skipn 2 _tag_seq).
Definition txPr : descriptor := ZeroOrOne "c:txPr" (skipn 4 _tag_seq).
Definition dLblPos : descriptor := ZeroOrOne "c:dLblPos" (skipn 5 _tag_seq).

Definition descriptors : list descriptor := [dLbl; numFmt; txPr; dLblPos].

(** The tree [parse_xml] builds from the text of [_default_xml]; the
    namespace declaration is not an attribute of the element. *)
Definition _default_xml : element :=
  Element "c:dLbls" []
    [ Element "c:showLegendKey" [("val", "0")] [];
      Element "c:showVal" [("val", "1")] [];
      Element "c:showCatName" [("val", "0")] [];
      Element "c:showSerName" [("val", "0")] [];
      Element "c:showPercent" [("val", "0")] [];
      Element "c:showBubbleSize" [("val", "0")] [] ].

Definition new_default : element := _default_xml.

Definition dLbl_lst (self : element) : list (nat * element) :=
  findall "c:dLbl" self.

(** [c:dLbl[c:idx[@val="%d"]]] *)
Definition xpath_dLbl_idx (idx : Z) (self : element) : list (nat * element) :=
  xpath "c:dLbl" (has_child "c:idx" (attr_is "val" (fmt_d idx))) self.

Definition get_dLbl_for_point (idx : Z) : M (option nat) :=
  fun self =>
    match xpath_dLbl_idx idx self with
    | (p, _) :: _ => (Ok (Some p), self)
    | [] => (Ok None, self)
    end.

Definition _new_dLbl : element := CT_DLbl.new_dLbl.

(** Where the loop of [_insert_dLbl_in_sequence] ends: at the child it
    returns from, after the last child it visited, or with none visited. *)
Inductive place : Type :=
| Before (p : nat)
| After (p : nat)
| NoDLbl.

Section Indexed.
Variable st : simple_type.

Fixpoint scan (idx : Z) (lst : list (nat * element)) (dLbl : option nat)
  : result place :=
  match lst with
  | [] =>
      Ok (match dLbl with Some p => After p | None => NoDLbl end)
  | (p, d) :: rest =>
      match CT_DLbl.idx_val st d with
      | Raise e => Raise e
      | Ok v =>
          if (v >? idx)%Z then Ok (Before p) else scan idx rest (Some p)
      end
  end.

Definition _insert_dLbl_in_sequence (idx : Z) : M nat :=
  fun self =>
    match CT_DLbl.set_idx_val st idx _new_dLbl with
    | Raise e => (Raise e, self)
    | Ok new_dLbl =>
        match scan idx (dLbl_lst self) None with
        | Raise e => (Raise e, self)
        | Ok (Before p) => (Ok p, addprevious p new_dLbl self)
        | Ok (After p) => (Ok (S p), addnext p new_dLbl self)
        | Ok NoDLbl => (Ok 0, insert 0 new_dLbl self)
        end
    end.

Definition get_or_add_dLbl_for_point (idx : Z) : M nat :=
  fun self =>
    match xpath_dLbl_idx idx self with
    | (p, _) :: _ => (Ok p, self)
    | [] => _insert_dLbl_in_sequence idx self
    end.

(** A client calling [get_or_add_dLbl_for_point] for each index of a
    list in turn. *)
Fixpoint calls (idxs : list Z) : M (list nat) :=
  match idxs with
  | [] => ret []
  | i :: rest =>
      p <- get_or_add_dLbl_for_point i ;;
      ps <- calls rest ;;
      ret (p :: ps)
  end.

(** A client calling it [n + 1] times for the same index. *)
Fixpoint repeated (idx : Z) (n : nat) : M nat :=
  match n with
  | 0 => get_or_add_dLbl_for_point idx
  | S n' => get_or_add_dLbl_for_point idx ;;; repeated idx n'
  end.

(** The point indexes of the [c:dLbl] children, in document order. *)
Fixpoint idx_vals (lst : list (nat * element)) : result (list Z) :=
  match lst with
  | [] => Ok []
  | (_, d) :: rest =>
      match CT_DLbl.idx_val st d, idx_vals rest with
      | Ok v, Ok vs => Ok (v :: vs)
      | Raise e, _ => Raise e
      | _, Raise e => Raise e
      end
  end.
End Indexed.

End CT_DLbls.

(** A codec for closed examples: decimal text for the non-negative
    integers. *)
Definition decimal : simple_type :=
  {| to_xml := fun v => if (0 <=? v)%Z then Some (fmt_d v) else None;
     from_xml := fun s => option_map Z.of_int (NilZero.int_of_string s) |}.

Definition empty_dLbls : element := OxmlElement "c:dLbls".

(** ** Reference notions the statements use *)

(** The position of the first element of a list that satisfies [f]. *)
Fixpoint first_index {A} (f : A -> bool) (l : list A) : option nat :=
  match l with
  | [] => None
  | x :: l' => if f x then Some 0 else option_map S (first_index f l')
  end.

(** A [c:dLbl] with a [c:idx] child whose [val] is the text of [i]. *)
Definition has_point_index (i : Z) (c : element) : bool :=
  has_tag "c:dLbl" c && has_child "c:idx" (attr_is "val" (fmt_d i)) c.

(** A [c:tx] with a [c:rich] child. *)
Definition is_tx_rich (c : element) : bool :=
  has_tag "c:tx" c && has_child "c:rich" (fun _ => true) c.

Definition count_tag (nsptag : string) (e : element) : nat :=
  List.length (filter (has_tag nsptag) (children e)).

(** The [c:dLbl] that [_insert_dLbl_in_sequence] builds when the codec
    writes the index as [s]. *)
Definition mk_dLbl (s : string) : element :=
  Element "c:dLbl" []
    [ Element "c:idx" [("val", s)] [];
      Element "c:showLegendKey" [("val", "0")] [] ].

Definition count_idx (i : Z) (e : element) : nat :=
  List.length (filter (has_point_index i) (children e)).

(** Collections for closed examples. *)
Definition dLbls_2_5 : element :=
  Element "c:dLbls" [] [mk_dLbl "2"; mk_dLbl "5"; Element "c:numFmt" [] []].

Definition dLbls_delete : element :=
  Element "c:dLbls" [] [Element "c:delete" [("val", "1")] []].

Definition dLbls_minus_1 : element :=
  Element "c:dLbls" [] [mk_dLbl "-1"].

Definition dLbl_strRef : element :=
  Element "c:dLbl" []
    [ Element "c:idx" [("val", "0")] [];
      Element "c:tx" [] [Element "c:strRef" [] []];
      Element "c:showLegendKey" [("val", "0")] [] ].

(** The tag of a flag element and the boolean its [val] reads as. *)
Definition flag_of (c : element) : string * option bool :=
  (tag c,
   match get "val" c with
   | Some s => bool_from_xml s
   | None => None
   end).

(** A child that, if it is a [c:dLbl], has a point index the codec reads,
    and one that is at most [i]. *)
Definition idx_le (st : simple_type) (i : Z) (c : element) : Prop :=
  has_tag "c:dLbl" c = true ->
  exists v, CT_DLbl.idx_val st c = Ok v /\ (v <= i)%Z.

(** A child that, if it is a [c:dLbl], has a point index the codec reads. *)
Definition idx_readable (st : simple_type) (c : element) : Prop :=
  has_tag "c:dLbl" c = true -> exists v, CT_DLbl.idx_val st c = Ok v.

(** A [c:dLbl] whose point index reads as greater than [i]. *)
Definition idx_gt (st : simple_type) (i : Z) (c : element) : bool :=
  has_tag "c:dLbl" c &&
  match CT_DLbl.idx_val st c with
  | Ok v => (i <? v)%Z
  | Raise _ => false
  end.

(** The [c:dLbl] children are, in document order, the elements
    [_insert_dLbl_in_sequence] builds for the indexes [vs]. *)
Definition dLbls_built (vs : list Z) (cs : list element) : Prop :=
  filter (has_tag "c:dLbl") cs = map (fun v => mk_dLbl (fmt_d v)) vs.

(** The subsequence of a tag sequence strictly after a tag. *)
Fixpoint tags_after (nsptag : string) (seq : list string) : list string :=
  match seq with
  | [] => []
  | t :: seq' => if t =? nsptag then seq' else tags_after nsptag seq'
  end.

(** The number of [c:dLbl] children whose point index reads as [i]. *)
Definition count_reads (st : simple_type) (i : Z) (e : element) : nat :=
  List.length
    (filter (fun c =>
               has_tag "c:dLbl" c &&
               match CT_DLbl.idx_val st c with
               | Ok v => (v =? i)%Z
               | Raise _ => false
               end) (children e)).

(** What [get_or_add_tx_rich] makes of a [c:tx]: its children without the
    [c:strRef] ones, then a new [c:rich] when none is left among them. *)
Definition rich_tx (rich_body : list element) (tx : element) : element :=
  let kept := filter (fun c => negb (has_tag "c:strRef" c)) (children tx) in
  set_children
    (if existsb (has_tag "c:rich") kept then kept
     else kept ++ [Element "c:rich" [] rich_body])
    tx.

(** More collections for closed examples: a [c:dLbl] with no [c:idx], and
    one whose index text is not the decimal text of its value. *)
Definition dLbls_no_idx : element :=
  Element "c:dLbls" [] [Element "c:dLbl" [] []].

Definition dLbls_05 : element :=
  Element "c:dLbls" [] [mk_dLbl "05"].

(** ** Lists and positions *)

Section ListFacts.
Context {A : Type}.
Variable f : A -> bool.

Lemma first_index_none (l : list A) :
  first_index f l = None <-> forall x, In x l -> f x = false.
Proof.
  induction l as [|x l IH]; simpl.
  - split; [intros _ y []|reflexivity].
  - destruct (f x) eqn:Hx.
    + split; [discriminate|].
      intros H. rewrite (H x) in Hx; [discriminate|now left].
    + split.
      * intros H y [->|Hy]; [assumption|]. apply IH; [|assumption].
        destruct (first_index f l); [discriminate|reflexivity].
      * intros H. rewrite (proj2 IH); [reflexivity|].
        intros y Hy. apply H. now right.
Qed.

Lemma first_index_split (l : list A) (p : nat) :
  first_index f l = Some p <->
  exists pre d post,
    l = pre ++ d :: post /\ List.length pre = p /\
    f d = true /\ forall x, In x pre -> f x = false.
Proof.
  revert p. induction l as [|x l IH]; intros p; simpl.
  - split; [discriminate|].
    intros (pre & d & post & E & _). now destruct pre.
  - destruct (f x) eqn:Hx.
    + split.
      * intros [= <-]. exists [], x, l. repeat split; auto. intros y [].
      * intros (pre & d & post & E & Hp & Hd & Hpre).
        destruct pre as [|y pre]; simpl in *; [now subst|].
        injection E as <- _. rewrite (Hpre x) in Hx; [discriminate|now left].
    + split.
      * destruct (first_index f l) as [q|] eqn:Eq; simpl; [|discriminate].
        intros [= <-]. destruct (proj1 (IH q) eq_refl)
          as (pre & d & post & -> & Hp & Hd & Hpre).
        exists (x :: pre), d, post. simpl. repeat split; auto.
        intros y [->|Hy]; auto.
      * intros (pre & d & post & E & Hp & Hd & Hpre).
        destruct pre as [|y pre]; simpl in *.
        -- injection E as -> _. congruence.
        -- injection E as -> ->. subst p.
           rewrite (proj2 (IH (List.length pre))); [reflexivity|].
           exists pre, d, post. repeat split; auto.
Qed.

Lemma last_split (l : list A) :
  (forall x, In x l -> f x = false) \/
  exists pre d post,
    l = pre ++ d :: post /\ f d = true /\ forall x, In x post -> f x = false.
Proof.
  induction l as [|x l [IH|(pre & d & post & -> & Hd & Hpost)]].
  - left. intros x [].
  - destruct (f x) eqn:Hx.
    + right. exists [], x, l. auto.
    + left. intros y [->|Hy]; auto.
  - right. exists (x :: pre), d, post. auto.
Qed.
End ListFacts.

(** ** Children found by tag and by XPath *)

Section TreeFacts.
Variable t : string.

Lemma map_snd_findall_from (cs : list element) (n : nat) :
  map snd (findall_from n t cs) = filter (has_tag t) cs.
Proof.
  revert n. induction cs as [|c cs IH]; intros n; simpl; [reflexivity|].
  destruct (has_tag t c); simpl; now rewrite IH.
Qed.

Lemma findall_from_app (a b : list element) (n : nat) :
  findall_from n t (a ++ b) =
  findall_from n t a ++ findall_from (n + List.length a) t b.
Proof.
  revert n. induction a as [|c a IH]; intros n; simpl.
  - now rewrite Nat.add_0_r.
  - rewrite IH, Nat.add_succ_r. simpl. now destruct (has_tag t c).
Qed.

Lemma findall_from_none (cs : list element) (n : nat) :
  (forall c, In c cs -> has_tag t c = false) -> findall_from n t cs = [].
Proof.
  revert n. induction cs as [|c cs IH]; intros n H; simpl; [reflexivity|].
  rewrite (H c) by now left. apply IH. intros d Hd. apply H. now right.
Qed.

Lemma xpath_from_cases (pred : element -> bool) (cs : list element) (n : nat) :
  match filter (fun pc => pred (snd pc)) (findall_from n t cs) with
  | [] => first_index (fun c => has_tag t c && pred c) cs = None
  | (p, c) :: _ =>
      exists q, p = n + q /\
        first_index (fun c => has_tag t c && pred c) cs = Some q /\
        nth_error cs q = Some c
  end.
Proof.
  revert n. induction cs as [|c cs IH]; intros n; simpl; [reflexivity|].
  destruct (has_tag t c) eqn:Ht; simpl.
  - destruct (pred c) eqn:Hp; simpl.
    + exists 0. now rewrite Nat.add_0_r.
    + specialize (IH (S n)).
      destruct (filter _ (findall_from (S n) t cs)) as [|[p d] r].
      * now rewrite IH.
      * destruct IH as (q & -> & -> & Hq). exists (S q).
        now rewrite Nat.add_succ_r.
  - specialize (IH (S n)).
    destruct (filter _ (findall_from (S n) t cs)) as [|[p d] r].
    + now rewrite IH.
    + destruct IH as (q & -> & -> & Hq). exists (S q).
      now rewrite Nat.add_succ_r.
Qed.

Lemma xpath_cases (pred : element -> bool) (e : element) :
  match xpath t pred e with
  | [] => first_index (fun c => has_tag t c && pred c) (children e) = None
  | (p, c) :: _ =>
      first_index (fun c => has_tag t c && pred c) (children e) = Some p /\
      nth_error (children e) p = Some c
  end.
Proof.
  unfold xpath, findall.
  pose proof (xpath_from_cases pred (children e) 0) as H.
  destruct (filter _ (findall_from 0 t (children e))) as [|[p c] r];
    [assumption|].
  destruct H as (q & -> & H1 & H2). now split.
Qed.
End TreeFacts.

Lemma set_children_children (e : element) : set_children (children e) e = e.
Proof. now destruct e. Qed.

Lemma xpath_dLbl_idx_cases (i : Z) (self : element) :
  match CT_DLbls.xpath_dLbl_idx i self with
  | [] => first_index (has_point_index i) (children self) = None
  | (p, c) :: _ =>
      first_index (has_point_index i) (children self) = Some p /\
      nth_error (children self) p = Some c
  end.
Proof. apply xpath_cases. Qed.

Lemma xpath_tx_rich_cases (self : element) :
  match xpath "c:tx" (has_child "c:rich" (fun _ => true)) self with
  | [] => first_index is_tx_rich (children self) = None
  | (p, c) :: _ =>
      first_index is_tx_rich (children self) = Some p /\
      nth_error (children self) p = Some c
  end.
Proof. apply xpath_cases. Qed.

Lemma firstn_length_app {A} (pre post : list A) :
  firstn (List.length pre) (pre ++ post) = pre.
Proof. induction pre; simpl; [now destruct post|now f_equal]. Qed.

Lemma skipn_length_app {A} (pre post : list A) :
  skipn (List.length pre) (pre ++ post) = post.
Proof. induction pre; simpl; auto. Qed.

Lemma skipn_S_length_app {A} (pre post : list A) (d : A) :
  skipn (S (List.length pre)) (pre ++ d :: post) = post.
Proof. induction pre; simpl; auto. Qed.

Lemma splice_length_app (pre post : list element) (new : element) :
  splice (List.length pre) new (pre ++ post) = pre ++ new :: post.
Proof. unfold splice. now rewrite firstn_length_app, skipn_length_app. Qed.

Lemma remove_split (pre post : list element) (d : element) (e : element) :
  children e = pre ++ d :: post ->
  remove (List.length pre) e = set_children (pre ++ post) e.
Proof.
  intros E. unfold remove. rewrite E.
  now rewrite firstn_length_app, skipn_S_length_app.
Qed.

(** ** The lookups *)

(** C10. [get_dLbl_for_point] is a pure lookup: it returns, without
    raising, the position of the first [c:dLbl] child whose [c:idx] has
    the text of [idx] as its [val], or [None] when there is none, and the
    element it is called on is the same after the call as before. *)
Theorem get_dLbl_for_point_pure_lookup (idx : Z) (self : element) :
  CT_DLbls.get_dLbl_for_point idx self =
  (Ok (first_index (has_point_index idx) (children self)), self).
Proof.
  unfold CT_DLbls.get_dLbl_for_point.
  pose proof (xpath_dLbl_idx_cases idx self) as H.
  destruct (CT_DLbls.xpath_dLbl_idx idx self) as [|[p c] r].
  - now rewrite H.
  - destruct H as [-> _]. reflexivity.
Qed.

(** C9. [remove_tx_rich] returns without raising; with no [c:tx] child
    that holds a [c:rich] the children are left as they are, and otherwise
    the first such [c:tx] child, and only it, is detached. *)
Theorem remove_tx_rich_detaches_or_keeps (self : element) :
  match first_index is_tx_rich (children self) with
  | None => CT_DLbl.remove_tx_rich self = (Ok tt, self)
  | Some p =>
      exists pre tx post,
        children self = pre ++ tx :: post /\ List.length pre = p /\
        is_tx_rich tx = true /\
        (forall c, In c pre -> is_tx_rich c = false) /\
        CT_DLbl.remove_tx_rich self = (Ok tt, set_children (pre ++ post) self)
  end.
Proof.
  unfold CT_DLbl.remove_tx_rich.
  pose proof (xpath_tx_rich_cases self) as H.
  destruct (xpath "c:tx" _ self) as [|[p c] r].
  - now rewrite H.
  - destruct H as [H _]. rewrite H.
    apply first_index_split in H.
    destruct H as (pre & d & post & E & Hp & Hd & Hpre).
    exists pre, d, post. repeat split; auto.
    rewrite <- Hp. now rewrite (remove_split pre post d).
Qed.

(** ** The loop of [_insert_dLbl_in_sequence] *)

Section Scan.
Variable st : simple_type.
Variable i : Z.

Lemma scan_before (pre post : list element) (d : element) (v : Z) :
  forall (n : nat) (last : option nat),
  (forall c, In c pre -> idx_le st i c) ->
  has_tag "c:dLbl" d = true ->
  CT_DLbl.idx_val st d = Ok v -> (i < v)%Z ->
  CT_DLbls.scan st i (findall_from n "c:dLbl" (pre ++ d :: post)) last =
  Ok (CT_DLbls.Before (n + List.length pre)).
Proof.
  induction pre as [|c pre IH]; intros n last Hpre Hd Hv Hlt.
  - cbn [app findall_from]. rewrite Hd. cbn [CT_DLbls.scan]. rewrite Hv.
    destruct (Z.gtb_spec v i); [|lia]. now rewrite Nat.add_0_r.
  - cbn [app findall_from List.length]. rewrite Nat.add_succ_r.
    assert (forall c', In c' pre -> idx_le st i c') as Hpre'
      by (intros c' Hc'; apply Hpre; now right).
    destruct (has_tag "c:dLbl" c) eqn:Hc.
    + destruct (Hpre c (or_introl eq_refl) Hc) as (w & Hw & Hle).
      cbn [CT_DLbls.scan]. rewrite Hw.
      destruct (Z.gtb_spec w i); [lia|]. now apply (IH (S n)).
    + now apply (IH (S n)).
Qed.

Lemma scan_after (pre post : list element) (d : element) :
  forall (n : nat) (last : option nat),
  (forall c, In c pre -> idx_le st i c) ->
  has_tag "c:dLbl" d = true -> idx_le st i d ->
  (forall c, In c post -> has_tag "c:dLbl" c = false) ->
  CT_DLbls.scan st i (findall_from n "c:dLbl" (pre ++ d :: post)) last =
  Ok (CT_DLbls.After (n + List.length pre)).
Proof.
  induction pre as [|c pre IH]; intros n last Hpre Hd Hle Hpost.
  - cbn [app findall_from]. rewrite Hd.
    rewrite (findall_from_none "c:dLbl" post (S n) Hpost).
    destruct (Hle Hd) as (w & Hw & Hwi).
    cbn [CT_DLbls.scan]. rewrite Hw.
    destruct (Z.gtb_spec w i); [lia|]. now rewrite Nat.add_0_r.
  - cbn [app findall_from List.length]. rewrite Nat.add_succ_r.
    assert (forall c', In c' pre -> idx_le st i c') as Hpre'
      by (intros c' Hc'; apply Hpre; now right).
    destruct (has_tag "c:dLbl" c) eqn:Hc.
    + destruct (Hpre c (or_introl eq_refl) Hc) as (w & Hw & Hwi).
      cbn [CT_DLbls.scan]. rewrite Hw.
      destruct (Z.gtb_spec w i); [lia|]. now apply (IH (S n)).
    + now apply (IH (S n)).
Qed.

Lemma set_idx_val_new :
  CT_DLbl.set_idx_val st i CT_DLbls._new_dLbl =
  match to_xml st i with
  | Some s => Ok (mk_dLbl s)
  | None => Raise InvalidValue
  end.
Proof.
  unfold CT_DLbl.set_idx_val. cbn. now destruct (to_xml st i).
Qed.

Lemma idx_val_mk (s : string) :
  CT_DLbl.idx_val st (mk_dLbl s) =
  match from_xml st s with Some v => Ok v | None => Raise InvalidValue end.
Proof. reflexivity. Qed.

Lemma has_point_index_mk (s : string) :
  has_point_index i (mk_dLbl s) = (s =? fmt_d i).
Proof.
  unfold has_point_index, has_child, attr_is. cbn.
  now rewrite orb_false_r.
Qed.

(** What [get_or_add_dLbl_for_point] does when no child has the index:
    it is [_insert_dLbl_in_sequence]. *)
Lemma get_or_add_absent (self : element) :
  first_index (has_point_index i) (children self) = None ->
  CT_DLbls.get_or_add_dLbl_for_point st i self =
  CT_DLbls._insert_dLbl_in_sequence st i self.
Proof.
  intros H. unfold CT_DLbls.get_or_add_dLbl_for_point.
  pose proof (xpath_dLbl_idx_cases i self) as X.
  destruct (CT_DLbls.xpath_dLbl_idx i self) as [|[p c] r]; [reflexivity|].
  destruct X as [X _]. congruence.
Qed.

Lemma insert_before (self : element) (s : string)
  (pre post : list element) (d : element) (v : Z) :
  to_xml st i = Some s ->
  children self = pre ++ d :: post ->
  (forall c, In c pre -> idx_le st i c) ->
  has_tag "c:dLbl" d = true ->
  CT_DLbl.idx_val st d = Ok v -> (i < v)%Z ->
  CT_DLbls._insert_dLbl_in_sequence st i self =
  (Ok (List.length pre),
   set_children (pre ++ mk_dLbl s :: d :: post) self).
Proof.
  intros Hs E Hpre Hd Hv Hlt. unfold CT_DLbls._insert_dLbl_in_sequence.
  rewrite set_idx_val_new, Hs.
  unfold CT_DLbls.dLbl_lst, findall. rewrite E.
  rewrite (scan_before pre post d v 0 None Hpre Hd Hv Hlt). cbn [Nat.add].
  unfold addprevious, insert. now rewrite E, splice_length_app.
Qed.

Lemma insert_after (self : element) (s : string)
  (pre post : list element) (d : element) :
  to_xml st i = Some s ->
  children self = pre ++ d :: post ->
  (forall c, In c pre -> idx_le st i c) ->
  has_tag "c:dLbl" d = true -> idx_le st i d ->
  (forall c, In c post -> has_tag "c:dLbl" c = false) ->
  CT_DLbls._insert_dLbl_in_sequence st i self =
  (Ok (S (List.length pre)),
   set_children (pre ++ d :: mk_dLbl s :: post) self).
Proof.
  intros Hs E Hpre Hd Hle Hpost. unfold CT_DLbls._insert_dLbl_in_sequence.
  rewrite set_idx_val_new, Hs.
  unfold CT_DLbls.dLbl_lst, findall. rewrite E.
  rewrite (scan_after pre post d 0 None Hpre Hd Hle Hpost). cbn [Nat.add].
  unfold addnext, insert. rewrite E.
  change (pre ++ d :: post) with (pre ++ [d] ++ post).
  rewrite app_assoc.
  replace (S (List.length pre)) with (List.length (pre ++ [d]))
    by (rewrite length_app; simpl; lia).
  rewrite splice_length_app. now rewrite <- app_assoc.
Qed.

Lemma insert_first (self : element) (s : string) :
  to_xml st i = Some s ->
  (forall c, In c (children self) -> has_tag "c:dLbl" c = false) ->
  CT_DLbls._insert_dLbl_in_sequence st i self =
  (Ok 0, set_children (mk_dLbl s :: children self) self).
Proof.
  intros Hs Hno. unfold CT_DLbls._insert_dLbl_in_sequence.
  rewrite set_idx_val_new, Hs.
  unfold CT_DLbls.dLbl_lst, findall.
  rewrite (findall_from_none "c:dLbl" (children self) 0 Hno).
  reflexivity.
Qed.
End Scan.

(** ** Creation always finds a place *)

Section Total.
Variable st : simple_type.
Variable i : Z.

Lemma idx_gt_false_le (c : element) :
  idx_readable st c -> idx_gt st i c = false -> idx_le st i c.
Proof.
  intros Hr Hg Ht. destruct (Hr Ht) as (v & Hv). exists v. split; auto.
  unfold idx_gt in Hg. rewrite Ht, Hv in Hg. cbn in Hg.
  apply Z.ltb_ge in Hg. exact Hg.
Qed.

Lemma idx_gt_true (c : element) :
  idx_gt st i c = true ->
  has_tag "c:dLbl" c = true /\
  exists v, CT_DLbl.idx_val st c = Ok v /\ (i < v)%Z.
Proof.
  unfold idx_gt. intros H. apply andb_prop in H as [Ht H]. split; auto.
  destruct (CT_DLbl.idx_val st c) as [v|]; [|discriminate].
  exists v. split; auto. now apply Z.ltb_lt.
Qed.

Lemma insert_total (self : element) (s : string) :
  to_xml st i = Some s ->
  (forall c, In c (children self) -> idx_readable st c) ->
  exists pre post,
    children self = pre ++ post /\
    CT_DLbls._insert_dLbl_in_sequence st i self =
    (Ok (List.length pre), set_children (pre ++ mk_dLbl s :: post) self).
Proof.
  intros Hs Hr.
  destruct (first_index (idx_gt st i) (children self)) as [p|] eqn:E.
  - apply first_index_split in E.
    destruct E as (pre & d & post & E & _ & Hd & Hpre).
    destruct (idx_gt_true d Hd) as (Ht & v & Hv & Hlt).
    exists pre, (d :: post). split; auto.
    apply insert_before with (v := v); auto.
    intros c Hc. apply idx_gt_false_le; auto.
    apply Hr. rewrite E. apply in_or_app. now left.
  - assert (forall c, In c (children self) -> idx_le st i c) as Hle.
    { intros c Hc. apply idx_gt_false_le; auto.
      now apply (proj1 (first_index_none (idx_gt st i) _) E). }
    destruct (last_split (has_tag "c:dLbl") (children self))
      as [Hno|(pre & d & post & E' & Hd & Hpost)].
    + exists [], (children self). split; auto.
      now apply insert_first.
    + exists (pre ++ [d]), post. rewrite <- !app_assoc. split; auto.
      rewrite length_app, Nat.add_1_r.
      apply insert_after; auto.
      * intros c Hc. apply Hle. rewrite E'. apply in_or_app. now left.
      * apply Hle. rewrite E'. apply in_or_app. right. now left.
Qed.
End Total.

Section Counting.
Context {A : Type}.
Variable f : A -> bool.

Lemma filter_none (l : list A) :
  (forall x, In x l -> f x = false) -> filter f l = [].
Proof.
  induction l as [|x l IH]; intros H; simpl; [reflexivity|].
  rewrite (H x) by now left. apply IH. intros y Hy. apply H. now right.
Qed.

Lemma filter_some (l : list A) (x : A) :
  In x l -> f x = true -> 1 <= List.length (filter f l).
Proof.
  intros Hin Hx.
  assert (In x (filter f l)) as H by (apply filter_In; auto).
  destruct (filter f l); [contradiction|simpl; lia].
Qed.
End Counting.

Lemma get_or_add_present (st : simple_type) (i : Z) (self : element) (p : nat) :
  first_index (has_point_index i) (children self) = Some p ->
  CT_DLbls.get_or_add_dLbl_for_point st i self = (Ok p, self).
Proof.
  intros E. unfold CT_DLbls.get_or_add_dLbl_for_point.
  pose proof (xpath_dLbl_idx_cases i self) as X.
  destruct (CT_DLbls.xpath_dLbl_idx i self) as [|[q c] r]; [congruence|].
  destruct X as [X _]. congruence.
Qed.

Lemma no_dLbl_no_point_index (i : Z) (cs : list element) :
  (forall c, In c cs -> has_tag "c:dLbl" c = false) ->
  first_index (has_point_index i) cs = None.
Proof.
  intros H. apply first_index_none. intros c Hc.
  unfold has_point_index. now rewrite (H c Hc).
Qed.

Lemma first_successor_from_ge (succ : list string) (cs : list element) :
  forall n p, first_successor_from n succ cs = Some p -> n <= p.
Proof.
  induction cs as [|c cs IH]; intros n p; cbn; [discriminate|].
  destruct (tag_in succ c).
  - intros [= ->]. lia.
  - intros H. apply IH in H. lia.
Qed.

(** ** Where a new [c:dLbl] goes *)

(** C3. When [get_or_add_dLbl_for_point] has to create the [c:dLbl] (no
    child has the index, and the codec writes it), the new element goes
    immediately before the first [c:dLbl] child whose point index is
    greater; and when no [c:dLbl] child has a greater point index and there
    is at least one, immediately after the last [c:dLbl] child. *)
Theorem new_dLbl_before_first_greater_or_after_last
  (st : simple_type) (i : Z) (self : element) (s : string) :
  first_index (has_point_index i) (children self) = None ->
  to_xml st i = Some s ->
  (forall pre d post v,
      children self = pre ++ d :: post ->
      (forall c, In c pre -> idx_le st i c) ->
      has_tag "c:dLbl" d = true ->
      CT_DLbl.idx_val st d = Ok v -> (i < v)%Z ->
      CT_DLbls.get_or_add_dLbl_for_point st i self =
      (Ok (List.length pre),
       set_children (pre ++ mk_dLbl s :: d :: post) self))
  /\
  (forall pre d post,
      children self = pre ++ d :: post ->
      (forall c, In c (children self) -> idx_le st i c) ->
      has_tag "c:dLbl" d = true ->
      (forall c, In c post -> has_tag "c:dLbl" c = false) ->
      CT_DLbls.get_or_add_dLbl_for_point st i self =
      (Ok (S (List.length pre)),
       set_children (pre ++ d :: mk_dLbl s :: post) self)).
Proof.
  intros Habs Hs. split.
  - intros pre d post v E Hpre Hd Hv Hlt.
    rewrite (get_or_add_absent st i self Habs).
    now apply insert_before with (v := v).
  - intros pre d post E Hall Hd Hpost.
    rewrite (get_or_add_absent st i self Habs).
    apply insert_after; auto.
    + intros c Hc. apply Hall. rewrite E. apply in_or_app. now left.
    + apply Hall. rewrite E. apply in_or_app. right. now left.
Qed.

Lemma new_dLbl_before_first_greater_or_after_last_witness :
  CT_DLbls.get_or_add_dLbl_for_point decimal 3 dLbls_2_5 =
  (Ok 1,
   set_children
     [mk_dLbl "2"; mk_dLbl "3"; mk_dLbl "5"; Element "c:numFmt" [] []]
     dLbls_2_5)
  /\
  CT_DLbls.get_or_add_dLbl_for_point decimal 7 dLbls_2_5 =
  (Ok 2,
   set_children
     [mk_dLbl "2"; mk_dLbl "5"; mk_dLbl "7"; Element "c:numFmt" [] []]
     dLbls_2_5).
Proof.
  split.
  - apply (proj1 (new_dLbl_before_first_greater_or_after_last
                    decimal 3 dLbls_2_5 "3" eq_refl eq_refl)
             [mk_dLbl "2"] (mk_dLbl "5") [Element "c:numFmt" [] []] 5%Z).
    + reflexivity.
    + intros c [<-|[]] _. exists 2%Z. split; [reflexivity|lia].
    + reflexivity.
    + reflexivity.
    + lia.
  - apply (proj2 (new_dLbl_before_first_greater_or_after_last
                    decimal 7 dLbls_2_5 "7" eq_refl eq_refl)
             [mk_dLbl "2"] (mk_dLbl "5") [Element "c:numFmt" [] []]).
    + reflexivity.
    + intros c [<-|[<-|[<-|[]]]].
      * intros _. exists 2%Z. split; [reflexivity|lia].
      * intros _. exists 5%Z. split; [reflexivity|lia].
      * discriminate.
    + reflexivity.
    + intros c [<-|[]]. reflexivity.
Defined.

(** C4, as the code has it.  When the [c:dLbl] has to be created and the
    collection has no [c:dLbl] child, the new element is inserted as the
    first child.  That is the position the placement rule of optional and
    repeatable children gives (before the first child with a successor
    tag, else last) when the collection has no child or its first child
    has a successor tag of [c:dLbl], and for no other collection. *)
Theorem first_dLbl_inserted_at_front
  (st : simple_type) (i : Z) (self : element) (s : string) :
  (forall c, In c (children self) -> has_tag "c:dLbl" c = false) ->
  to_xml st i = Some s ->
  CT_DLbls.get_or_add_dLbl_for_point st i self =
  (Ok 0, set_children (mk_dLbl s :: children self) self)
  /\
  (snd (insert_element_before (mk_dLbl s) (successors CT_DLbls.dLbl) self) =
   set_children (mk_dLbl s :: children self) self
   <->
   match children self with
   | [] => True
   | c :: _ => tag_in (successors CT_DLbls.dLbl) c = true
   end).
Proof.
  intros Hno Hs. split.
  - rewrite (get_or_add_absent st i self (no_dLbl_no_point_index i _ Hno)).
    now apply insert_first.
  - unfold insert_element_before.
    destruct (children self) as [|c cs] eqn:E.
    + cbn [first_successor_from List.length snd]. unfold append. rewrite E.
      split; auto.
    + cbn [first_successor_from].
      destruct (tag_in (successors CT_DLbls.dLbl) c) eqn:Hc.
      * unfold addprevious, insert, splice. rewrite E. split; auto.
      * split; [|discriminate]. intros H. exfalso.
        assert (has_tag "c:dLbl" c = false) as Hc' by (apply Hno; now left).
        destruct (first_successor_from 1 (successors CT_DLbls.dLbl) cs)
          as [p|] eqn:Hp.
        -- apply first_successor_from_ge in Hp.
           destruct p as [|p]; [lia|].
           cbn [snd] in H. unfold addprevious, insert, splice in H.
           rewrite E in H. apply (f_equal children) in H. cbn in H.
           injection H as H _. now rewrite H in Hc'.
        -- cbn [snd] in H. unfold append in H. rewrite E in H.
           apply (f_equal children) in H. cbn in H.
           injection H as H _. now rewrite H in Hc'.
Qed.

Lemma first_dLbl_inserted_at_front_witness :
  CT_DLbls.get_or_add_dLbl_for_point decimal 4 CT_DLbls.new_default =
  (Ok 0,
   set_children (mk_dLbl "4" :: children CT_DLbls.new_default)
     CT_DLbls.new_default).
Proof.
  refine (proj1 (first_dLbl_inserted_at_front
                   decimal 4 CT_DLbls.new_default "4" _ eq_refl)).
  intros c Hc. cbn in Hc.
  repeat (destruct Hc as [<-|Hc]; [reflexivity|]). contradiction.
Defined.

(** C4, as the specification words it, fails on a collection whose only
    child is a [c:delete]: the code puts the new [c:dLbl] first, the
    placement rule puts it last. *)
Lemma placement_rule_counterexample :
  CT_DLbls.dLbl_lst dLbls_delete = [] /\
  children (snd (CT_DLbls.get_or_add_dLbl_for_point decimal 0 dLbls_delete)) =
  [mk_dLbl "0"; Element "c:delete" [("val", "1")] []] /\
  children (snd (insert_element_before (mk_dLbl "0")
                   (successors CT_DLbls.dLbl) dLbls_delete)) =
  [Element "c:delete" [("val", "1")] []; mk_dLbl "0"] /\
  snd (CT_DLbls.get_or_add_dLbl_for_point decimal 0 dLbls_delete) <>
  snd (insert_element_before (mk_dLbl "0")
         (successors CT_DLbls.dLbl) dLbls_delete).
Proof.
  repeat split; try reflexivity. vm_compute. discriminate.
Qed.

(** ** Negative indexes *)

(** C5, as the code has it.  [get_or_add_dLbl_for_point] has no check of
    its own on the sign of the index.  For a negative index, a child that
    carries its text as [c:idx] [val] is returned, with no error and no
    change.  With no such child, the outcome is the integer codec's: when
    it refuses to write the index the call raises [InvalidValue] and
    leaves the collection as it was, and when it writes the index (the
    point indexes of the children being readable) the call returns and the
    new [c:dLbl] is in the collection. *)
Theorem negative_index_left_to_codec
  (st : simple_type) (i : Z) (self : element) :
  (i < 0)%Z ->
  match first_index (has_point_index i) (children self) with
  | Some p => CT_DLbls.get_or_add_dLbl_for_point st i self = (Ok p, self)
  | None =>
      (to_xml st i = None ->
       CT_DLbls.get_or_add_dLbl_for_point st i self =
       (Raise InvalidValue, self))
      /\
      (forall s,
          to_xml st i = Some s ->
          (forall c, In c (children self) -> idx_readable st c) ->
          exists pre post,
            children self = pre ++ post /\
            CT_DLbls.get_or_add_dLbl_for_point st i self =
            (Ok (List.length pre),
             set_children (pre ++ mk_dLbl s :: post) self))
  end.
Proof.
  intros _.
  destruct (first_index (has_point_index i) (children self)) as [p|] eqn:E.
  - now apply get_or_add_present.
  - rewrite (get_or_add_absent st i self E). split.
    + intros Hs. unfold CT_DLbls._insert_dLbl_in_sequence.
      now rewrite set_idx_val_new, Hs.
    + intros s Hs Hr. now apply insert_total.
Qed.

Lemma negative_index_left_to_codec_witness :
  CT_DLbls.get_or_add_dLbl_for_point decimal (-1) empty_dLbls =
  (Raise InvalidValue, empty_dLbls).
Proof.
  exact (proj1 (negative_index_left_to_codec decimal (-1) empty_dLbls
                  eq_refl) eq_refl).
Defined.

(** C5, as the specification words it, fails: index -1 on a collection
    that holds a [c:dLbl] whose [c:idx] [val] is the text of -1 returns
    that child. *)
Lemma negative_index_counterexample :
  (-1 < 0)%Z /\
  CT_DLbls.get_or_add_dLbl_for_point decimal (-1) dLbls_minus_1 =
  (Ok 0, dLbls_minus_1).
Proof. split; reflexivity. Qed.

(** ** Idempotence *)

Lemma repeated_present (st : simple_type) (i : Z) (self : element) (p : nat) :
  first_index (has_point_index i) (children self) = Some p ->
  forall n, CT_DLbls.repeated st i n self = (Ok p, self).
Proof.
  intros E n. induction n as [|n IH]; cbn [CT_DLbls.repeated].
  - now apply get_or_add_present.
  - unfold bind. now rewrite (get_or_add_present st i self p E).
Qed.

(** C2. A [c:dLbl] child that carries the index is returned by
    [get_or_add_dLbl_for_point], and nothing is created: the collection is
    the same after the call.  From a collection with at most one such
    child, one call or more (the codec writing the index in decimal, the
    point indexes of the children readable) all return the same child, the
    collection after the first call is the collection after every later
    one, and it has exactly one [c:dLbl] child with the index. *)
Theorem get_or_add_dLbl_for_point_idempotent
  (st : simple_type) (i : Z) (self : element) :
  (forall p,
      first_index (has_point_index i) (children self) = Some p ->
      CT_DLbls.get_or_add_dLbl_for_point st i self = (Ok p, self))
  /\
  (to_xml st i = Some (fmt_d i) ->
   (forall c, In c (children self) -> idx_readable st c) ->
   count_idx i self <= 1 ->
   exists p self',
     (forall n, CT_DLbls.repeated st i n self = (Ok p, self')) /\
     CT_DLbls.get_or_add_dLbl_for_point st i self' = (Ok p, self') /\
     first_index (has_point_index i) (children self') = Some p /\
     count_idx i self' = 1).
Proof.
  split; [intros p; apply get_or_add_present|].
  intros Hs Hr Hc.
  destruct (first_index (has_point_index i) (children self)) as [p|] eqn:E.
  - exists p, self. repeat split.
    + now apply repeated_present.
    + now apply get_or_add_present.
    + assumption.
    + apply first_index_split in E.
      destruct E as (pre & d & post & E & _ & Hd & _).
      assert (In d (children self)) as Hin
        by (rewrite E; apply in_or_app; right; now left).
      pose proof (filter_some (has_point_index i) _ d Hin Hd).
      unfold count_idx in *. lia.
  - destruct (insert_total st i self (fmt_d i) Hs Hr)
      as (pre & post & Ecs & Hins).
    pose proof (proj1 (first_index_none _ _) E) as Hnone.
    set (self' := set_children (pre ++ mk_dLbl (fmt_d i) :: post) self).
    assert (has_point_index i (mk_dLbl (fmt_d i)) = true) as Hmk
      by (rewrite has_point_index_mk; apply String.eqb_refl).
    assert (first_index (has_point_index i) (children self') =
            Some (List.length pre)) as E'.
    { apply first_index_split. exists pre, (mk_dLbl (fmt_d i)), post.
      repeat split; auto. intros c Hc'. apply Hnone. rewrite Ecs.
      apply in_or_app. now left. }
    assert (CT_DLbls.get_or_add_dLbl_for_point st i self =
            (Ok (List.length pre), self')) as Hfirst
      by (rewrite (get_or_add_absent st i self E); exact Hins).
    exists (List.length pre), self'. repeat split.
    + intros [|n]; cbn [CT_DLbls.repeated]; [exact Hfirst|].
      unfold bind. rewrite Hfirst. now apply repeated_present.
    + now apply get_or_add_present.
    + assumption.
    + unfold count_idx, self'. cbn [children set_children].
      rewrite filter_app. cbn [filter]. rewrite Hmk.
      rewrite (filter_none (has_point_index i) pre), (filter_none _ post).
      * reflexivity.
      * intros c Hc'. apply Hnone. rewrite Ecs. apply in_or_app. now right.
      * intros c Hc'. apply Hnone. rewrite Ecs. apply in_or_app. now left.
Qed.

Lemma get_or_add_dLbl_for_point_idempotent_witness :
  CT_DLbls.get_or_add_dLbl_for_point decimal 5 dLbls_2_5 = (Ok 1, dLbls_2_5)
  /\
  exists p self',
    (forall n, CT_DLbls.repeated decimal 3 n dLbls_2_5 = (Ok p, self')) /\
    CT_DLbls.get_or_add_dLbl_for_point decimal 3 self' = (Ok p, self') /\
    first_index (has_point_index 3) (children self') = Some p /\
    count_idx 3 self' = 1.
Proof.
  split.
  - exact (proj1 (get_or_add_dLbl_for_point_idempotent decimal 5 dLbls_2_5)
             1 eq_refl).
  - apply (proj2 (get_or_add_dLbl_for_point_idempotent decimal 3 dLbls_2_5)
             eq_refl).
    + intros c [<-|[<-|[<-|[]]]] H.
      * now exists 2%Z.
      * now exists 5%Z.
      * discriminate H.
    + apply Nat.leb_le. reflexivity.
Defined.

(** ** Ascending order *)

Lemma StronglySorted_app_r (l1 l2 : list Z) :
  StronglySorted Z.lt (l1 ++ l2) -> StronglySorted Z.lt l2.
Proof.
  induction l1 as [|a l1 IH]; simpl; [auto|].
  intros H. inversion H; auto.
Qed.

Lemma StronglySorted_insert (l1 l2 : list Z) (i : Z) :
  StronglySorted Z.lt (l1 ++ l2) ->
  (forall x, In x l1 -> (x < i)%Z) ->
  (forall x, In x l2 -> (i < x)%Z) ->
  StronglySorted Z.lt (l1 ++ i :: l2).
Proof.
  induction l1 as [|a l1 IH]; simpl; intros Hs H1 H2.
  - constructor; auto. now apply Forall_forall.
  - inversion Hs as [|? ? Hs' Hall]; subst. constructor.
    + apply IH; auto.
    + apply Forall_app in Hall as [Ha1 Ha2]. apply Forall_app.
      split; [assumption|constructor; auto].
Qed.

Section Ascending.
Variable st : simple_type.

Lemma built_child (vs : list Z) (cs : list element) (c : element) :
  dLbls_built vs cs -> In c cs -> has_tag "c:dLbl" c = true ->
  exists v, In v vs /\ c = mk_dLbl (fmt_d v).
Proof.
  intros Hb Hc Ht.
  assert (In c (filter (has_tag "c:dLbl") cs)) as H
    by (apply filter_In; auto).
  rewrite Hb in H. apply in_map_iff in H as (v & <- & Hv). now exists v.
Qed.

Lemma idx_val_built (v : Z) :
  codec_ok st v -> CT_DLbl.idx_val st (mk_dLbl (fmt_d v)) = Ok v.
Proof. intros [_ H]. now rewrite idx_val_mk, H. Qed.

Lemma built_readable (vs : list Z) (cs : list element) :
  dLbls_built vs cs -> Forall (codec_ok st) vs ->
  forall c, In c cs -> idx_readable st c.
Proof.
  intros Hb Hok c Hc Ht.
  destruct (built_child vs cs c Hb Hc Ht) as (v & Hv & ->).
  exists v. apply idx_val_built. now apply (proj1 (Forall_forall _ _) Hok).
Qed.

Lemma built_absent (vs : list Z) (cs : list element) (i : Z) :
  dLbls_built vs cs -> Forall (codec_ok st) vs -> codec_ok st i ->
  ~ In i vs -> first_index (has_point_index i) cs = None.
Proof.
  intros Hb Hok Hi Hnot. apply first_index_none. intros c Hc.
  destruct (has_tag "c:dLbl" c) eqn:Ht;
    [|unfold has_point_index; now rewrite Ht].
  destruct (built_child vs cs c Hb Hc Ht) as (v & Hv & ->).
  rewrite has_point_index_mk.
  destruct (String.eqb_spec (fmt_d v) (fmt_d i)) as [E|]; [|reflexivity].
  exfalso. apply Hnot.
  pose proof (proj1 (Forall_forall _ _) Hok v Hv) as [_ Hrv].
  destruct Hi as [_ Hri]. rewrite E in Hrv. congruence.
Qed.

(** Every index of [vs] that sits on a child that is not greater than
    [i], and is not [i], is below [i]. *)
Lemma built_below (vs : list Z) (i x : Z) :
  Forall (codec_ok st) vs -> ~ In i vs -> In x vs ->
  idx_gt st i (mk_dLbl (fmt_d x)) = false -> (x < i)%Z.
Proof.
  intros Hok Hnot Hx Hg. unfold idx_gt in Hg.
  rewrite (idx_val_built x) in Hg
    by now apply (proj1 (Forall_forall _ _) Hok).
  cbn in Hg. apply Z.ltb_ge in Hg.
  assert (x <> i) by (intros ->; contradiction). lia.
Qed.

Lemma step_ascending (i : Z) (self : element) (vs : list Z) :
  dLbls_built vs (children self) -> StronglySorted Z.lt vs ->
  Forall (codec_ok st) vs -> codec_ok st i -> ~ In i vs ->
  exists p self' vs',
    CT_DLbls.get_or_add_dLbl_for_point st i self = (Ok p, self') /\
    dLbls_built vs' (children self') /\
    StronglySorted Z.lt vs' /\ Permutation (i :: vs) vs'.
Proof.
  intros Hb Hsorted Hok Hi Hnot.
  rewrite (get_or_add_absent st i self
             (built_absent vs _ i Hb Hok Hi Hnot)).
  pose proof (proj1 Hi) as Hs.
  assert (has_tag "c:dLbl" (mk_dLbl (fmt_d i)) = true) as Hnew
    by reflexivity.
  destruct (first_index (idx_gt st i) (children self)) as [p|] eqn:E.
  - apply first_index_split in E.
    destruct E as (pre & d & post & E & _ & Hd & Hpre).
    destruct (idx_gt_true st i d Hd) as (Ht & v & Hv & Hlt).
    unfold dLbls_built in Hb. rewrite E, filter_app in Hb.
    cbn [filter] in Hb. rewrite Ht in Hb. symmetry in Hb.
    apply map_eq_app in Hb as (v1 & v2' & -> & Hb1 & Hb2).
    destruct v2' as [|vd v2]; [discriminate|].
    cbn [map] in Hb2. injection Hb2 as Hbd Hb2.
    assert (v = vd) as ->.
    { rewrite <- Hbd, idx_val_built in Hv; [congruence|].
      apply (proj1 (Forall_forall _ _) Hok). apply in_or_app.
      right. now left. }
    exists (List.length pre),
      (set_children (pre ++ mk_dLbl (fmt_d i) :: d :: post) self),
      (v1 ++ i :: vd :: v2).
    split; [|split; [|split]].
    + apply insert_before with (v := vd); auto.
      intros c Hc. apply idx_gt_false_le; auto.
      apply (built_readable (v1 ++ vd :: v2) (children self)); auto.
      * unfold dLbls_built. rewrite E, filter_app. cbn [filter].
        rewrite Ht, map_app, Hb1. cbn [map]. now rewrite Hbd, Hb2.
      * rewrite E. apply in_or_app. now left.
    + unfold dLbls_built. cbn [children set_children].
      rewrite filter_app. cbn [filter]. rewrite Hnew, Ht.
      rewrite map_app, Hb1. cbn [map]. now rewrite Hbd, Hb2.
    + apply StronglySorted_insert; auto.
      * intros x Hx. apply built_below with (vs := v1 ++ vd :: v2); auto.
        -- apply in_or_app. now left.
        -- apply Hpre.
           assert (In (mk_dLbl (fmt_d x)) (filter (has_tag "c:dLbl") pre))
             as H
             by (rewrite <- Hb1;
                 now apply (in_map (fun v => mk_dLbl (fmt_d v)))).
           now apply filter_In in H as [H _].
      * apply StronglySorted_app_r in Hsorted.
        inversion Hsorted as [|? ? _ Hall]; subst.
        intros x [<-|Hx]; [assumption|].
        pose proof (proj1 (Forall_forall _ _) Hall x Hx). lia.
    + apply Permutation_middle.
  - pose proof (proj1 (first_index_none (idx_gt st i) _) E) as Hnone.
    pose proof (built_readable vs _ Hb Hok) as Hread.
    assert (forall c, In c (children self) -> idx_le st i c) as Hle
      by (intros c Hc; apply idx_gt_false_le; auto).
    assert (forall x, In x vs -> (x < i)%Z) as Hlt.
    { intros x Hx. apply built_below with (vs := vs); auto.
      apply Hnone.
      assert (In (mk_dLbl (fmt_d x))
                (filter (has_tag "c:dLbl") (children self))) as H
        by (rewrite Hb; now apply (in_map (fun v => mk_dLbl (fmt_d v)))).
      now apply filter_In in H as [H _]. }
    assert (StronglySorted Z.lt (vs ++ [i])) as Hsorted'.
    { apply StronglySorted_insert; [now rewrite app_nil_r|auto|].
      intros x []. }
    destruct (last_split (has_tag "c:dLbl") (children self))
      as [Hno|(pre & d & post & E' & Hd & Hpost)].
    + exists 0, (set_children (mk_dLbl (fmt_d i) :: children self) self),
        (vs ++ [i]).
      split; [now apply insert_first|].
      split; [|split; [assumption|apply Permutation_cons_append]].
      unfold dLbls_built in *. cbn [children set_children filter].
      rewrite Hnew. rewrite (filter_none _ _ Hno) in *.
      symmetry in Hb. apply map_eq_nil in Hb. now subst vs.
    + exists (S (List.length pre)),
        (set_children (pre ++ d :: mk_dLbl (fmt_d i) :: post) self),
        (vs ++ [i]).
      split.
      { apply insert_after; auto.
        - intros c Hc. apply Hle. rewrite E'. apply in_or_app. now left.
        - apply Hle. rewrite E'. apply in_or_app. right. now left. }
      split; [|split; [assumption|apply Permutation_cons_append]].
      unfold dLbls_built in *. cbn [children set_children].
      rewrite E' in Hb. rewrite filter_app in *. cbn [filter] in *.
      rewrite Hd, Hnew in *. rewrite (filter_none _ _ Hpost) in *.
      rewrite map_app, <- Hb. cbn [map]. now rewrite <- app_assoc.
Qed.

Lemma calls_ascending (idxs : list Z) :
  forall (self : element) (vs : list Z),
  dLbls_built vs (children self) -> StronglySorted Z.lt vs ->
  Forall (codec_ok st) vs -> Forall (codec_ok st) idxs ->
  NoDup idxs -> (forall i, In i idxs -> ~ In i vs) ->
  exists ps self' vs',
    CT_DLbls.calls st idxs self = (Ok ps, self') /\
    dLbls_built vs' (children self') /\
    StronglySorted Z.lt vs' /\
    Forall (codec_ok st) vs' /\ Permutation (idxs ++ vs) vs'.
Proof.
  induction idxs as [|i idxs IH]; intros self vs Hb Hsorted Hok Hoks Hnd Hdis.
  - exists [], self, vs. cbn. repeat split; auto.
  - inversion Hoks as [|? ? Hi Hoks']; subst.
    inversion Hnd as [|? ? Hni Hnd']; subst.
    destruct (step_ascending i self vs Hb Hsorted Hok Hi)
      as (p & self1 & vs1 & Hcall & Hb1 & Hs1 & Hp1);
      [apply Hdis; now left|].
    assert (Forall (codec_ok st) vs1) as Hok1.
    { apply Forall_forall. intros x Hx.
      apply Permutation_sym in Hp1.
      apply (Permutation_in _ Hp1) in Hx. destruct Hx as [<-|Hx]; auto.
      now apply (proj1 (Forall_forall _ _) Hok). }
    destruct (IH self1 vs1 Hb1 Hs1 Hok1 Hoks' Hnd') as
      (ps & self2 & vs2 & Hcalls & Hb2 & Hs2 & Hok2 & Hp2).
    { intros j Hj Hin. apply Permutation_sym in Hp1.
      apply (Permutation_in _ Hp1) in Hin. destruct Hin as [<-|Hin].
      - contradiction.
      - apply (Hdis j); [now right|assumption]. }
    exists (p :: ps), self2, vs2. repeat split; auto.
    + cbn [CT_DLbls.calls]. unfold bind. rewrite Hcall, Hcalls. reflexivity.
    + etransitivity; [|exact Hp2]. cbn [app].
      etransitivity; [apply Permutation_middle|].
      apply Permutation_app_head. exact Hp1.
Qed.

Lemma idx_vals_built (vs : list Z) :
  forall lst, map snd lst = map (fun v => mk_dLbl (fmt_d v)) vs ->
  Forall (codec_ok st) vs -> CT_DLbls.idx_vals st lst = Ok vs.
Proof.
  induction vs as [|v vs IH]; intros [|[p d] lst] E Hok;
    try discriminate; [reflexivity|].
  cbn [map snd] in E. injection E as -> E.
  inversion Hok; subst. cbn [CT_DLbls.idx_vals].
  rewrite idx_val_built by assumption. now rewrite IH.
Qed.
End Ascending.

(** C1. From a collection with no [c:dLbl] child, calls of
    [get_or_add_dLbl_for_point] for pairwise distinct non-negative indexes,
    in any order of call, all return, and leave [c:dLbl] children whose
    point indexes in document order are strictly ascending; they are the
    indexes called for. *)
Theorem dLbls_in_ascending_order
  (st : simple_type) (idxs : list Z) (self : element) :
  (forall c, In c (children self) -> has_tag "c:dLbl" c = false) ->
  NoDup idxs ->
  Forall (fun i => (0 <= i)%Z) idxs ->
  Forall (codec_ok st) idxs ->
  exists ps self' vs,
    CT_DLbls.calls st idxs self = (Ok ps, self') /\
    CT_DLbls.idx_vals st (CT_DLbls.dLbl_lst self') = Ok vs /\
    StronglySorted Z.lt vs /\
    Permutation idxs vs.
Proof.
  intros Hno Hnd _ Hok.
  destruct (calls_ascending st idxs self [])
    as (ps & self' & vs & Hcalls & Hb & Hs & Hokvs & Hp); auto.
  - unfold dLbls_built. now rewrite (filter_none _ _ Hno).
  - constructor.
  - exists ps, self', vs. repeat split; auto.
    + apply idx_vals_built; auto.
      unfold CT_DLbls.dLbl_lst, findall. now rewrite map_snd_findall_from.
    + now rewrite app_nil_r in Hp.
Qed.

Lemma dLbls_in_ascending_order_witness :
  exists ps self' vs,
    CT_DLbls.calls decimal [3; 1; 2]%Z empty_dLbls = (Ok ps, self') /\
    CT_DLbls.idx_vals decimal (CT_DLbls.dLbl_lst self') = Ok vs /\
    StronglySorted Z.lt vs /\
    Permutation [3; 1; 2]%Z vs.
Proof.
  apply (dLbls_in_ascending_order decimal [3; 1; 2]%Z empty_dLbls).
  - intros c [].
  - repeat constructor; cbn; intuition discriminate.
  - repeat constructor; discriminate.
  - repeat constructor.
Defined.

(** The scenario of the three calls 3, 1, 2 on an empty collection. *)
Example calls_3_1_2 :
  snd (CT_DLbls.calls decimal [3; 1; 2]%Z empty_dLbls) =
  set_children [mk_dLbl "1"; mk_dLbl "2"; mk_dLbl "3"] empty_dLbls.
Proof. reflexivity. Qed.

(** ** The [c:tx] slot of a [c:dLbl] *)

Section Find.
Variable t : string.

Lemma findall_from_hd (cs : list element) :
  forall n,
  match hd_error (findall_from n t cs) with
  | Some (p, c) =>
      exists pre post,
        cs = pre ++ c :: post /\ p = n + List.length pre /\
        (forall x, In x pre -> has_tag t x = false) /\ has_tag t c = true
  | None => forall x, In x cs -> has_tag t x = false
  end.
Proof.
  induction cs as [|c cs IH]; intros n; cbn [findall_from].
  - intros x [].
  - destruct (has_tag t c) eqn:Hc.
    + cbn. exists [], cs. repeat split; auto. intros x [].
    + specialize (IH (S n)).
      destruct (hd_error (findall_from (S n) t cs)) as [[p d]|].
      * destruct IH as (pre & post & -> & -> & Hpre & Hd).
        exists (c :: pre), post. cbn. repeat split; auto.
        intros x [<-|Hx]; auto.
      * intros x [<-|Hx]; auto.
Qed.

Lemma find_some (e : element) (p : nat) (c : element) :
  find t e = Some (p, c) ->
  exists pre post,
    children e = pre ++ c :: post /\ p = List.length pre /\
    (forall x, In x pre -> has_tag t x = false) /\ has_tag t c = true.
Proof.
  unfold find, findall. intros H.
  pose proof (findall_from_hd (children e) 0) as X. now rewrite H in X.
Qed.

Lemma find_none (e : element) :
  find t e = None -> forall x, In x (children e) -> has_tag t x = false.
Proof.
  unfold find, findall. intros H.
  pose proof (findall_from_hd (children e) 0) as X. now rewrite H in X.
Qed.

Lemma find_split (e : element) (pre post : list element) (d : element) :
  children e = pre ++ d :: post ->
  (forall x, In x pre -> has_tag t x = false) -> has_tag t d = true ->
  find t e = Some (List.length pre, d).
Proof.
  intros E Hpre Hd. unfold find, findall.
  rewrite E, findall_from_app, (findall_from_none t pre 0 Hpre).
  cbn. now rewrite Hd.
Qed.
End Find.

Lemma nth_error_length_app {A} (pre post : list A) (d : A) :
  nth_error (pre ++ d :: post) (List.length pre) = Some d.
Proof. induction pre; cbn; auto. Qed.

Lemma on_child_split {A} (m : M A) (e : element)
  (pre post : list element) (d : element) :
  children e = pre ++ d :: post ->
  on_child (List.length pre) m e =
  (fst (m d), set_children (pre ++ snd (m d) :: post) e).
Proof.
  intros E. unfold on_child, replace_child.
  rewrite E, nth_error_length_app, firstn_length_app, skipn_S_length_app.
  now destruct (m d).
Qed.

Lemma first_successor_from_lt (succ : list string) (cs : list element) :
  forall n p, first_successor_from n succ cs = Some p -> p < n + List.length cs.
Proof.
  induction cs as [|c cs IH]; intros n p; cbn; [discriminate|].
  destruct (tag_in succ c).
  - intros [= ->]. lia.
  - intros H. apply IH in H. lia.
Qed.

Lemma insert_element_before_split
  (new : element) (succ : list string) (e : element) :
  exists pre post,
    children e = pre ++ post /\
    insert_element_before new succ e =
    (List.length pre, set_children (pre ++ new :: post) e).
Proof.
  unfold insert_element_before.
  destruct (first_successor_from 0 succ (children e)) as [p|] eqn:E.
  - apply first_successor_from_lt in E. cbn in E.
    exists (firstn p (children e)), (skipn p (children e)).
    rewrite firstn_skipn, length_firstn, Nat.min_l by lia. now split.
  - exists (children e), []. rewrite app_nil_r. now split.
Qed.

(** What a [get_or_add] accessor does to the number of children of each
    tag: the new child counts once where it was missing. *)
Lemma get_or_add_counts (new : element) (succ : list string) (e : element) :
  exists p e',
    get_or_add new succ e = (Ok p, e') /\
    tag e' = tag e /\
    count_tag (tag new) e' = Nat.max 1 (count_tag (tag new) e) /\
    forall t, has_tag t new = false -> count_tag t e' = count_tag t e.
Proof.
  unfold get_or_add. destruct (find (tag new) e) as [[p c]|] eqn:E.
  - exists p, e. repeat split; auto.
    apply find_some in E as (pre & post & E & _ & _ & Hc).
    assert (In c (children e)) as Hin
      by (rewrite E; apply in_or_app; right; now left).
    pose proof (filter_some (has_tag (tag new)) _ c Hin Hc).
    unfold count_tag. lia.
  - pose proof (find_none _ _ E) as Hno.
    destruct (insert_element_before_split new succ e)
      as (pre & post & Ecs & ->).
    exists (List.length pre), (set_children (pre ++ new :: post) e).
    repeat split.
    + unfold count_tag. cbn [children set_children].
      rewrite (filter_none _ _ Hno), filter_app. cbn [filter].
      unfold has_tag at 2. rewrite String.eqb_refl.
      rewrite (filter_none _ pre), (filter_none _ post); [reflexivity| |];
        intros x Hx; apply Hno; rewrite Ecs; apply in_or_app; auto.
    + intros t Ht. unfold count_tag. cbn [children set_children].
      rewrite Ecs, !filter_app. cbn [filter]. now rewrite Ht.
Qed.

Lemma _remove_strRef_counts (tx : element) :
  exists tx',
    CT_DLbl._remove_strRef tx = (Ok tt, tx') /\
    tag tx' = tag tx /\
    count_tag "c:strRef" tx' = 0 /\
    count_tag "c:rich" tx' = count_tag "c:rich" tx.
Proof.
  eexists. split; [reflexivity|]. unfold count_tag.
  cbn [children set_children tag]. split; [reflexivity|].
  induction (children tx) as [|c cs [IH1 IH2]]; [now split|].
  cbn [filter]. destruct (has_tag "c:strRef" c) eqn:Hs; cbn [negb filter].
  - split; [assumption|].
    assert (has_tag "c:rich" c = false) as ->; [|assumption].
    unfold has_tag in *. apply String.eqb_eq in Hs. now rewrite Hs.
  - rewrite Hs. split; [assumption|].
    destruct (has_tag "c:rich" c); cbn [List.length]; now rewrite IH2.
Qed.

Lemma get_or_add_tx_rich_counts (rich_body : list element) (self : element) :
  exists p self' tx',
    CT_DLbl.get_or_add_tx_rich rich_body self = (Ok p, self') /\
    find "c:tx" self' = Some (p, tx') /\
    count_tag "c:strRef" tx' = 0 /\
    count_tag "c:rich" tx' =
    Nat.max 1 (match find "c:tx" self with
               | Some (_, tx) => count_tag "c:rich" tx
               | None => 0
               end).
Proof.
  assert (exists pre tx0 post self1,
             CT_DLbl.get_or_add_tx self = (Ok (List.length pre), self1) /\
             children self1 = pre ++ tx0 :: post /\
             (forall x, In x pre -> has_tag "c:tx" x = false) /\
             has_tag "c:tx" tx0 = true /\
             count_tag "c:rich" tx0 =
             match find "c:tx" self with
             | Some (_, tx) => count_tag "c:rich" tx
             | None => 0
             end) as (pre & tx0 & post & self1 & H1 & E1 & Hpre & Ht0 & Hc0).
  { unfold CT_DLbl.get_or_add_tx, get_or_add. cbn [tag OxmlElement].
    destruct (find "c:tx" self) as [[p c]|] eqn:E.
    - apply find_some in E as (pre & post & E & -> & Hpre & Hc).
      now exists pre, c, post, self.
    - pose proof (find_none _ _ E) as Hno.
      destruct (insert_element_before_split (OxmlElement "c:tx")
                  (successors CT_DLbl.tx) self) as (pre & post & Ecs & ->).
      exists pre, (OxmlElement "c:tx"), post,
        (set_children (pre ++ OxmlElement "c:tx" :: post) self).
      repeat split; auto.
      intros x Hx. apply Hno. rewrite Ecs. apply in_or_app. now left. }
  destruct (_remove_strRef_counts tx0) as (tx1 & R1 & Rt & Rs & Rr).
  destruct (get_or_add_counts (Element "c:rich" [] rich_body) [] tx1)
    as (q & tx2 & G & Gt & Gr & Go).
  exists (List.length pre), (set_children (pre ++ tx2 :: post) self1), tx2.
  split; [|split; [|split]].
  - unfold CT_DLbl.get_or_add_tx_rich, bind. rewrite H1.
    rewrite (on_child_split _ self1 pre post tx0 E1), R1. cbn [fst snd].
    rewrite (on_child_split (CT_DLbl.get_or_add_rich rich_body)
               (set_children (pre ++ tx1 :: post) self1) pre post tx1 eq_refl).
    unfold CT_DLbl.get_or_add_rich. rewrite G. cbn [fst snd].
    unfold ret. now destruct self1.
  - apply (find_split "c:tx" _ pre post tx2); auto.
    unfold has_tag in *. now rewrite Gt, Rt.
  - rewrite (Go "c:strRef" eq_refl). exact Rs.
  - cbn [tag] in Gr. rewrite Gr, Rr, Hc0. reflexivity.
Qed.

(** C6. After [get_or_add_tx_rich], the [c:tx] child of the data label
    holds no [c:strRef] child and exactly one [c:rich] child, whether the
    [c:tx] was there before or not and whichever of [c:strRef] and
    [c:rich] it held (each optional child at most once). *)
Theorem get_or_add_tx_rich_one_variant
  (rich_body : list element) (self : element) :
  (forall q tx, find "c:tx" self = Some (q, tx) -> count_tag "c:rich" tx <= 1) ->
  exists p self' tx',
    CT_DLbl.get_or_add_tx_rich rich_body self = (Ok p, self') /\
    find "c:tx" self' = Some (p, tx') /\
    count_tag "c:strRef" tx' = 0 /\
    count_tag "c:rich" tx' = 1.
Proof.
  intros H.
  destruct (get_or_add_tx_rich_counts rich_body self)
    as (p & self' & tx' & Hcall & Hfind & Hs & Hr).
  exists p, self', tx'. repeat split; auto.
  destruct (find "c:tx" self) as [[q tx]|]; [|exact Hr].
  specialize (H q tx eq_refl). lia.
Qed.

Lemma get_or_add_tx_rich_one_variant_witness :
  exists p self' tx',
    CT_DLbl.get_or_add_tx_rich [] dLbl_strRef = (Ok p, self') /\
    find "c:tx" self' = Some (p, tx') /\
    count_tag "c:strRef" tx' = 0 /\
    count_tag "c:rich" tx' = 1.
Proof.
  apply (get_or_add_tx_rich_one_variant [] dLbl_strRef).
  intros q tx H. cbn in H. injection H as _ <-. cbn. lia.
Defined.

(** The rich variant replaces the reference variant in place. *)
Example get_or_add_tx_rich_strRef :
  CT_DLbl.get_or_add_tx_rich [] dLbl_strRef =
  (Ok 1,
   Element "c:dLbl" []
     [ Element "c:idx" [("val", "0")] [];
       Element "c:tx" [] [Element "c:rich" [] []];
       Element "c:showLegendKey" [("val", "0")] [] ]).
Proof. reflexivity. Qed.

(** A new [c:tx] goes before the first child with a successor tag. *)
Example get_or_add_tx_rich_new :
  CT_DLbl.get_or_add_tx_rich [] CT_DLbl.new_dLbl =
  (Ok 1,
   Element "c:dLbl" []
     [ Element "c:idx" [] [];
       Element "c:tx" [] [Element "c:rich" [] []];
       Element "c:showLegendKey" [("val", "0")] [] ]).
Proof. reflexivity. Qed.

(** ** The default subtree and the descriptors *)

(** C7. A new default [c:dLbls] has exactly six children, the six show
    flags, of which [c:showVal] reads as true and the other five as
    false. *)
Theorem new_default_six_flags :
  List.length (children CT_DLbls.new_default) = 6 /\
  map flag_of (children CT_DLbls.new_default) =
  [ ("c:showLegendKey", Some false);
    ("c:showVal", Some true);
    ("c:showCatName", Some false);
    ("c:showSerName", Some false);
    ("c:showPercent", Some false);
    ("c:showBubbleSize", Some false) ].
Proof. split; reflexivity. Qed.

(** C8. The successors of every descriptor of [CT_DLbls] and of [CT_DLbl]
    that declares successors are the tags of the class's tag sequence
    strictly after the descriptor's own tag. *)
Theorem successors_are_the_tags_after :
  Forall (fun d =>
            match successors_of d with
            | Some s => s = tags_after (child_tag d) CT_DLbls._tag_seq
            | None => True
            end) CT_DLbls.descriptors
  /\
  Forall (fun d =>
            match successors_of d with
            | Some s => s = tags_after (child_tag d) CT_DLbl._tag_seq
            | None => True
            end) CT_DLbl.descriptors.
Proof. split; repeat constructor. Qed.

(** ** Every outcome of [get_or_add_dLbl_for_point] *)

Section Outcomes.
Variable st : simple_type.
Variable i : Z.

Lemma scan_ok_shape (cs : list element) :
  forall (n : nat) (last : option nat) (pl : CT_DLbls.place),
  CT_DLbls.scan st i (findall_from n "c:dLbl" cs) last = Ok pl ->
  match pl with
  | CT_DLbls.Before p =>
      exists d, n <= p /\ nth_error cs (p - n) = Some d /\
                has_tag "c:dLbl" d = true
  | CT_DLbls.After p =>
      last = Some p \/
      exists d, n <= p /\ nth_error cs (p - n) = Some d /\
                has_tag "c:dLbl" d = true
  | CT_DLbls.NoDLbl =>
      last = None /\ forall c, In c cs -> has_tag "c:dLbl" c = false
  end.
Proof.
  induction cs as [|c cs IH]; intros n last pl; cbn [findall_from].
  - cbn [CT_DLbls.scan]. intros [= <-].
    destruct last; [now left|]. split; [reflexivity|intros c []].
  - assert (forall p, S n <= p -> p - n = S (p - S n)) as Hsub
      by (intros; lia).
    destruct (has_tag "c:dLbl" c) eqn:Hc.
    + cbn [CT_DLbls.scan].
      destruct (CT_DLbl.idx_val st c) as [v|e]; [|discriminate].
      destruct (v >? i)%Z.
      * intros [= <-]. exists c. rewrite Nat.sub_diag. now repeat split.
      * intros H. apply IH in H. destruct pl as [p|p|].
        -- destruct H as (d & Hn & Hd & Ht). exists d.
           rewrite (Hsub p Hn). repeat split; auto. lia.
        -- right. destruct H as [[= <-]|(d & Hn & Hd & Ht)].
           ++ exists c. rewrite Nat.sub_diag. now repeat split.
           ++ exists d. rewrite (Hsub p Hn). repeat split; auto. lia.
        -- destruct H as [H _]. discriminate H.
    + intros H. apply IH in H. destruct pl as [p|p|].
      * destruct H as (d & Hn & Hd & Ht). exists d.
        rewrite (Hsub p Hn). repeat split; auto. lia.
      * destruct H as [H|(d & Hn & Hd & Ht)]; [now left|right].
        exists d. rewrite (Hsub p Hn). repeat split; auto. lia.
      * destruct H as [H Hno]. split; [assumption|].
        intros x [<-|Hx]; auto.
Qed.

(** A returning [_insert_dLbl_in_sequence] has put the element it built
    between two parts of the children, at the front or next to a
    [c:dLbl]. *)
Lemma insert_ok_shape (self : element) (p : nat) (self' : element) :
  CT_DLbls._insert_dLbl_in_sequence st i self = (Ok p, self') ->
  exists s pre post,
    to_xml st i = Some s /\
    children self = pre ++ post /\ p = List.length pre /\
    self' = set_children (pre ++ mk_dLbl s :: post) self /\
    ((pre = [] /\ forall c, In c post -> has_tag "c:dLbl" c = false) \/
     (exists d post', post = d :: post' /\ has_tag "c:dLbl" d = true) \/
     (exists pre' d, pre = pre' ++ [d] /\ has_tag "c:dLbl" d = true)).
Proof.
  unfold CT_DLbls._insert_dLbl_in_sequence. rewrite set_idx_val_new.
  destruct (to_xml st i) as [s|]; [|discriminate].
  unfold CT_DLbls.dLbl_lst, findall.
  destruct (CT_DLbls.scan st i (findall_from 0 "c:dLbl" (children self)) None)
    as [pl|e] eqn:E; [|discriminate].
  apply scan_ok_shape in E. destruct pl as [q|q|].
  - destruct E as (d & _ & Hd & Ht). rewrite Nat.sub_0_r in Hd.
    apply nth_error_split in Hd as (l1 & l2 & Ecs & Hlen).
    intros [= <- <-]. exists s, l1, (d :: l2).
    split; [reflexivity|]. split; [assumption|]. split; [auto|]. split.
    + unfold addprevious, insert. now rewrite Ecs, <- Hlen, splice_length_app.
    + right. left. now exists d, l2.
  - destruct E as [E|(d & _ & Hd & Ht)]; [discriminate|].
    rewrite Nat.sub_0_r in Hd.
    apply nth_error_split in Hd as (l1 & l2 & Ecs & Hlen).
    intros [= <- <-]. exists s, (l1 ++ [d]), l2.
    rewrite <- !app_assoc. cbn [app].
    split; [reflexivity|]. split; [assumption|]. split.
    { rewrite length_app, Nat.add_1_r. now rewrite Hlen. }
    split.
    + unfold addnext, insert. rewrite Ecs.
      change (l1 ++ d :: l2) with (l1 ++ [d] ++ l2). rewrite app_assoc.
      replace (S q) with (List.length (l1 ++ [d]))
        by (rewrite length_app, Nat.add_1_r; now rewrite Hlen).
      rewrite splice_length_app. now rewrite <- app_assoc.
    + right. right. now exists l1, d.
  - destruct E as [_ Hno]. intros [= <- <-].
    exists s, [], (children self). repeat split; auto.
Qed.

Lemma get_or_add_ok_shape (self : element) (p : nat) (self' : element) :
  CT_DLbls.get_or_add_dLbl_for_point st i self = (Ok p, self') ->
  (first_index (has_point_index i) (children self) = Some p /\ self' = self)
  \/
  (first_index (has_point_index i) (children self) = None /\
   exists s pre post,
     to_xml st i = Some s /\
     children self = pre ++ post /\ p = List.length pre /\
     self' = set_children (pre ++ mk_dLbl s :: post) self /\
     ((pre = [] /\ forall c, In c post -> has_tag "c:dLbl" c = false) \/
      (exists d post', post = d :: post' /\ has_tag "c:dLbl" d = true) \/
      (exists pre' d, pre = pre' ++ [d] /\ has_tag "c:dLbl" d = true))).
Proof.
  intros H.
  destruct (first_index (has_point_index i) (children self)) as [q|] eqn:E.
  - rewrite (get_or_add_present st i self q E) in H.
    injection H as <- <-. now left.
  - rewrite (get_or_add_absent st i self E) in H. right.
    split; [reflexivity|]. now apply insert_ok_shape.
Qed.

Lemma get_or_add_raise_unchanged (self : element) (e : exn) (self' : element) :
  CT_DLbls.get_or_add_dLbl_for_point st i self = (Raise e, self') ->
  self' = self /\ first_index (has_point_index i) (children self) = None.
Proof.
  intros H.
  destruct (first_index (has_point_index i) (children self)) as [q|] eqn:E.
  - rewrite (get_or_add_present st i self q E) in H. discriminate H.
  - rewrite (get_or_add_absent st i self E) in H. split; [|reflexivity].
    unfold CT_DLbls._insert_dLbl_in_sequence in H.
    destruct (CT_DLbl.set_idx_val st i CT_DLbls._new_dLbl); [|congruence].
    destruct (CT_DLbls.scan st i (CT_DLbls.dLbl_lst self) None) as [[| |]|];
      congruence.
Qed.

Lemma scan_raises (pre post : list element) (d : element) (e : exn) :
  forall (n : nat) (last : option nat),
  (forall c, In c pre -> idx_le st i c) ->
  has_tag "c:dLbl" d = true -> CT_DLbl.idx_val st d = Raise e ->
  CT_DLbls.scan st i (findall_from n "c:dLbl" (pre ++ d :: post)) last =
  Raise e.
Proof.
  induction pre as [|c pre IH]; intros n last Hpre Hd He.
  - cbn [app findall_from]. rewrite Hd. cbn [CT_DLbls.scan]. now rewrite He.
  - cbn [app findall_from].
    assert (forall c', In c' pre -> idx_le st i c') as Hpre'
      by (intros c' Hc'; apply Hpre; now right).
    destruct (has_tag "c:dLbl" c) eqn:Hc.
    + destruct (Hpre c (or_introl eq_refl) Hc) as (w & Hw & Hle).
      cbn [CT_DLbls.scan]. rewrite Hw.
      destruct (Z.gtb_spec w i); [lia|]. now apply (IH (S n)).
    + now apply (IH (S n)).
Qed.
End Outcomes.

(** X1. Whenever [get_or_add_dLbl_for_point] returns, either the first
    child with the index is returned and the collection is unchanged, or
    no child had the index and exactly one child, the new [c:dLbl] with the
    index as the codec writes it, has been added at the returned position,
    all former children keeping their order, and the tag and attributes of
    the collection staying as they were. *)
Theorem get_or_add_returns_existing_or_adds_one
  (st : simple_type) (i : Z) (self : element) (p : nat) (self' : element) :
  CT_DLbls.get_or_add_dLbl_for_point st i self = (Ok p, self') ->
  (first_index (has_point_index i) (children self) = Some p /\ self' = self)
  \/
  (first_index (has_point_index i) (children self) = None /\
   exists s pre post,
     to_xml st i = Some s /\
     children self = pre ++ post /\ p = List.length pre /\
     self' = set_children (pre ++ mk_dLbl s :: post) self).
Proof.
  intros H. apply get_or_add_ok_shape in H.
  destruct H as [H|(E & s & pre & post & Hs & Ecs & Hp & Hself & _)].
  - now left.
  - right. split; [assumption|]. now exists s, pre, post.
Qed.

Lemma get_or_add_returns_existing_or_adds_one_witness :
  (first_index (has_point_index 3) (children dLbls_2_5) = Some 1 /\
   set_children
     [mk_dLbl "2"; mk_dLbl "3"; mk_dLbl "5"; Element "c:numFmt" [] []]
     dLbls_2_5 = dLbls_2_5)
  \/
  (first_index (has_point_index 3) (children dLbls_2_5) = None /\
   exists s pre post,
     to_xml decimal 3 = Some s /\
     children dLbls_2_5 = pre ++ post /\ 1 = List.length pre /\
     set_children
       [mk_dLbl "2"; mk_dLbl "3"; mk_dLbl "5"; Element "c:numFmt" [] []]
       dLbls_2_5 =
     set_children (pre ++ mk_dLbl s :: post) dLbls_2_5).
Proof.
  exact (get_or_add_returns_existing_or_adds_one decimal 3 dLbls_2_5 1 _
           eq_refl).
Defined.

(** X2. A raising [get_or_add_dLbl_for_point] leaves the collection as it
    was, and it raises only when no child has the index: the failure
    comes before any insertion. *)
Theorem get_or_add_raises_without_change
  (st : simple_type) (i : Z) (self : element) (e : exn) (self' : element) :
  CT_DLbls.get_or_add_dLbl_for_point st i self = (Raise e, self') ->
  self' = self /\ first_index (has_point_index i) (children self) = None.
Proof. apply get_or_add_raise_unchanged. Qed.

Lemma get_or_add_raises_without_change_witness :
  dLbls_no_idx = dLbls_no_idx /\
  first_index (has_point_index 1) (children dLbls_no_idx) = None.
Proof.
  exact (get_or_add_raises_without_change decimal 1 dLbls_no_idx
           SchemaViolation dLbls_no_idx eq_refl).
Defined.

(** X3. When the [c:dLbl] has to be created and the codec writes the
    index, a [c:dLbl] child whose point index cannot be read (no [c:idx],
    no [val], or a text the codec refuses), met before any child with a
    greater index, makes the call raise that child's error, with nothing
    inserted. *)
Theorem unreadable_dLbl_stops_creation
  (st : simple_type) (i : Z) (self : element) (s : string)
  (pre post : list element) (d : element) (e : exn) :
  first_index (has_point_index i) (children self) = None ->
  to_xml st i = Some s ->
  children self = pre ++ d :: post ->
  (forall c, In c pre -> idx_le st i c) ->
  has_tag "c:dLbl" d = true ->
  CT_DLbl.idx_val st d = Raise e ->
  CT_DLbls.get_or_add_dLbl_for_point st i self = (Raise e, self).
Proof.
  intros Habs Hs E Hpre Hd He.
  rewrite (get_or_add_absent st i self Habs).
  unfold CT_DLbls._insert_dLbl_in_sequence.
  rewrite set_idx_val_new, Hs. unfold CT_DLbls.dLbl_lst, findall.
  now rewrite E, (scan_raises st i pre post d e 0 None Hpre Hd He).
Qed.

Lemma unreadable_dLbl_stops_creation_witness :
  CT_DLbls.get_or_add_dLbl_for_point decimal 1 dLbls_no_idx =
  (Raise SchemaViolation, dLbls_no_idx).
Proof.
  apply (unreadable_dLbl_stops_creation decimal 1 dLbls_no_idx "1"
           [] [] (Element "c:dLbl" [] [])); try reflexivity.
  intros c [].
Defined.

(** ** Ascending order kept from any ascending collection *)

Section Order.
Variable st : simple_type.

Lemma idx_vals_Forall2 (l : list (nat * element)) :
  forall vs,
  CT_DLbls.idx_vals st l = Ok vs <->
  Forall2 (fun d v => CT_DLbl.idx_val st d = Ok v) (map snd l) vs.
Proof.
  induction l as [|[p d] l IH]; intros vs; cbn [CT_DLbls.idx_vals map snd].
  - split; [intros [= <-]; constructor|intros H; now inversion H].
  - split.
    + destruct (CT_DLbl.idx_val st d) as [v|e] eqn:Hd; [|discriminate].
      destruct (CT_DLbls.idx_vals st l) as [ws|e]; [|discriminate].
      intros [= <-]. constructor; [assumption|]. now apply IH.
    + intros H. inversion H as [|? v ? ws Hd Hl]; subst.
      rewrite Hd. apply IH in Hl. now rewrite Hl.
Qed.

Lemma idx_vals_filter (self : element) (vs : list Z) :
  CT_DLbls.idx_vals st (CT_DLbls.dLbl_lst self) = Ok vs <->
  Forall2 (fun d v => CT_DLbl.idx_val st d = Ok v)
    (filter (has_tag "c:dLbl") (children self)) vs.
Proof.
  rewrite idx_vals_Forall2. unfold CT_DLbls.dLbl_lst, findall.
  now rewrite map_snd_findall_from.
Qed.

Lemma Forall2_In_l {A B} (R : A -> B -> Prop) (l : list A) (l' : list B) :
  Forall2 R l l' -> forall a, In a l -> exists b, In b l' /\ R a b.
Proof.
  induction 1 as [|x y l l' Hxy _ IH]; intros a; [intros []|].
  intros [<-|Ha].
  - exists y. split; [now left|assumption].
  - destruct (IH a Ha) as (b & Hb & Hab). exists b. split; [now right|auto].
Qed.

Lemma Forall2_In_r {A B} (R : A -> B -> Prop) (l : list A) (l' : list B) :
  Forall2 R l l' -> forall b, In b l' -> exists a, In a l /\ R a b.
Proof.
  induction 1 as [|x y l l' Hxy _ IH]; intros b; [intros []|].
  intros [<-|Hb].
  - exists x. split; [now left|assumption].
  - destruct (IH b Hb) as (a & Ha & Hab). exists a. split; [now right|auto].
Qed.

(** Where the new element lands among the [c:dLbl] children: after those
    it was compared with and found not greater, before the first greater
    one. *)
Lemma insert_filter_shape (i : Z) (self : element) (s : string) :
  to_xml st i = Some s ->
  (forall c, In c (children self) -> idx_readable st c) ->
  exists p self' b1 b2,
    CT_DLbls._insert_dLbl_in_sequence st i self = (Ok p, self') /\
    filter (has_tag "c:dLbl") (children self) = b1 ++ b2 /\
    filter (has_tag "c:dLbl") (children self') = b1 ++ mk_dLbl s :: b2 /\
    (forall c, In c b1 ->
               exists v, CT_DLbl.idx_val st c = Ok v /\ (v <= i)%Z) /\
    (b2 = [] \/
     exists d b2' v, b2 = d :: b2' /\
                     CT_DLbl.idx_val st d = Ok v /\ (i < v)%Z).
Proof.
  intros Hs Hr.
  assert (has_tag "c:dLbl" (mk_dLbl s) = true) as Hnew by reflexivity.
  destruct (first_index (idx_gt st i) (children self)) as [p|] eqn:E.
  - apply first_index_split in E.
    destruct E as (pre & d & post & E & _ & Hd & Hpre).
    destruct (idx_gt_true st i d Hd) as (Ht & v & Hv & Hlt).
    exists (List.length pre),
      (set_children (pre ++ mk_dLbl s :: d :: post) self),
      (filter (has_tag "c:dLbl") pre),
      (d :: filter (has_tag "c:dLbl") post).
    assert (forall c, In c pre -> idx_le st i c) as Hle.
    { intros c Hc. apply idx_gt_false_le; auto. apply Hr. rewrite E.
      apply in_or_app. now left. }
    split; [now apply insert_before with (v := v)|].
    split; [rewrite E, filter_app; cbn [filter]; now rewrite Ht|].
    split.
    { cbn [children set_children]. rewrite filter_app. cbn [filter].
      now rewrite Hnew, Ht. }
    split; [|right; now exists d, (filter (has_tag "c:dLbl") post), v].
    intros c Hc. apply filter_In in Hc as [Hc Hct]. now apply Hle.
  - pose proof (proj1 (first_index_none (idx_gt st i) _) E) as Hnone.
    assert (forall c, In c (children self) -> idx_le st i c) as Hle
      by (intros c Hc; apply idx_gt_false_le; auto).
    destruct (last_split (has_tag "c:dLbl") (children self))
      as [Hno|(pre & d & post & E' & Hd & Hpost)].
    + exists 0, (set_children (mk_dLbl s :: children self) self), [], [].
      split; [now apply insert_first|].
      split; [now rewrite (filter_none _ _ Hno)|].
      split; [cbn [children set_children filter];
              now rewrite Hnew, (filter_none _ _ Hno)|].
      split; [intros c []|now left].
    + exists (S (List.length pre)),
        (set_children (pre ++ d :: mk_dLbl s :: post) self),
        (filter (has_tag "c:dLbl") pre ++ [d]), [].
      split.
      { apply insert_after; auto.
        - intros c Hc. apply Hle. rewrite E'. apply in_or_app. now left.
        - apply Hle. rewrite E'. apply in_or_app. right. now left. }
      split.
      { rewrite E', filter_app. cbn [filter].
        now rewrite Hd, (filter_none _ _ Hpost), app_nil_r. }
      split.
      { cbn [children set_children]. rewrite filter_app. cbn [filter].
        rewrite Hd, Hnew, (filter_none _ _ Hpost).
        now rewrite <- app_assoc. }
      split; [|now left].
      intros c Hc. apply in_app_or in Hc as [Hc|[<-|[]]].
      * apply filter_In in Hc as [Hc Hct]. apply Hle; auto.
        rewrite E'. apply in_or_app. now left.
      * apply Hle; auto. rewrite E'. apply in_or_app. right. now left.
Qed.

Lemma vals_readable (self : element) (vs : list Z) :
  CT_DLbls.idx_vals st (CT_DLbls.dLbl_lst self) = Ok vs ->
  forall c, In c (children self) -> idx_readable st c.
Proof.
  intros H c Hc Ht. apply idx_vals_filter in H.
  assert (In c (filter (has_tag "c:dLbl") (children self))) as Hin
    by (apply filter_In; auto).
  destruct (Forall2_In_l _ _ _ H c Hin) as (v & _ & Hv). now exists v.
Qed.

Lemma insert_keeps_ascending (i : Z) (self : element) (s : string)
  (vs : list Z) :
  to_xml st i = Some s -> from_xml st s = Some i ->
  CT_DLbls.idx_vals st (CT_DLbls.dLbl_lst self) = Ok vs ->
  StronglySorted Z.lt vs -> ~ In i vs ->
  exists p self' vs',
    CT_DLbls._insert_dLbl_in_sequence st i self = (Ok p, self') /\
    CT_DLbls.idx_vals st (CT_DLbls.dLbl_lst self') = Ok vs' /\
    StronglySorted Z.lt vs' /\ Permutation (i :: vs) vs'.
Proof.
  intros Hs Hback Hvs Hsorted Hnot.
  destruct (insert_filter_shape i self s Hs (vals_readable self vs Hvs))
    as (p & self' & b1 & b2 & Hins & Hb & Hb' & H1 & H2).
  apply idx_vals_filter in Hvs. rewrite Hb in Hvs.
  apply Forall2_app_inv_l in Hvs as (v1 & v2 & F1 & F2 & ->).
  exists p, self', (v1 ++ i :: v2).
  split; [assumption|]. split; [|split].
  - apply idx_vals_filter. rewrite Hb'. apply Forall2_app; [assumption|].
    constructor; [|assumption]. now rewrite idx_val_mk, Hback.
  - apply StronglySorted_insert; [assumption| |].
    + intros x Hx. destruct (Forall2_In_r _ _ _ F1 x Hx) as (c & Hc & Hcx).
      destruct (H1 c Hc) as (v & Hv & Hle).
      assert (x = v) as -> by congruence.
      assert (v <> i) by (intros ->; apply Hnot, in_or_app; now left). lia.
    + destruct H2 as [->|(d & b2' & v & -> & Hv & Hlt)].
      * inversion F2. intros x [].
      * inversion F2 as [|? vd ? v2' Hd F2']; subst.
        assert (vd = v) as -> by congruence.
        apply StronglySorted_app_r in Hsorted.
        inversion Hsorted as [|? ? _ Hall]; subst.
        intros x [<-|Hx]; [assumption|].
        pose proof (proj1 (Forall_forall _ _) Hall x Hx). lia.
  - apply Permutation_middle.
Qed.
End Order.

(** X4. Ascending order is kept from any ascending collection, not only
    from one the code built: when the point indexes of the [c:dLbl]
    children read as a strictly ascending list without [i], and the codec
    writes [i] as a text it reads back as [i], a creating call returns and
    the point indexes then read as a strictly ascending list made of [i]
    and the former ones. *)
Theorem ascending_order_kept
  (st : simple_type) (i : Z) (self : element) (s : string) (vs : list Z) :
  first_index (has_point_index i) (children self) = None ->
  to_xml st i = Some s -> from_xml st s = Some i ->
  CT_DLbls.idx_vals st (CT_DLbls.dLbl_lst self) = Ok vs ->
  StronglySorted Z.lt vs -> ~ In i vs ->
  exists p self' vs',
    CT_DLbls.get_or_add_dLbl_for_point st i self = (Ok p, self') /\
    CT_DLbls.idx_vals st (CT_DLbls.dLbl_lst self') = Ok vs' /\
    StronglySorted Z.lt vs' /\ Permutation (i :: vs) vs'.
Proof.
  intros Habs Hs Hback Hvs Hsorted Hnot.
  rewrite (get_or_add_absent st i self Habs).
  now apply insert_keeps_ascending with (s := s).
Qed.

Lemma ascending_order_kept_witness :
  exists p self' vs',
    CT_DLbls.get_or_add_dLbl_for_point decimal 3 dLbls_2_5 = (Ok p, self') /\
    CT_DLbls.idx_vals decimal (CT_DLbls.dLbl_lst self') = Ok vs' /\
    StronglySorted Z.lt vs' /\ Permutation [3; 2; 5]%Z vs'.
Proof.
  apply (ascending_order_kept decimal 3 dLbls_2_5 "3" [2; 5]%Z);
    try reflexivity.
  - repeat constructor.
  - cbn. intuition discriminate.
Defined.

(** ** The [c:dLbl] children stay first *)

Lemma app_split_at (f : element -> bool) (pre post : list element)
  (d : element) :
  forall block rest,
  pre ++ d :: post = block ++ rest ->
  f d = true -> (forall c, In c rest -> f c = false) ->
  exists b2, block = pre ++ d :: b2 /\ post = b2 ++ rest.
Proof.
  induction pre as [|a pre IH]; intros block rest E Hd Hrest.
  - destruct block as [|x block]; cbn in E.
    + exfalso. rewrite (Hrest d) in Hd; [discriminate|].
      rewrite <- E. now left.
    + injection E as <- E. now exists block.
  - destruct block as [|x block]; cbn in E.
    + exfalso. rewrite (Hrest d) in Hd; [discriminate|].
      rewrite <- E. right. apply in_or_app. right. now left.
    + injection E as <- E.
      destruct (IH block rest E Hd Hrest) as (b2 & -> & ->). now exists b2.
Qed.

Lemma get_or_add_keeps_dLbls_first
  (st : simple_type) (i : Z) (self : element) (p : nat) (self' : element)
  (block rest : list element) :
  children self = block ++ rest ->
  Forall (fun c => has_tag "c:dLbl" c = true) block ->
  (forall c, In c rest -> has_tag "c:dLbl" c = false) ->
  CT_DLbls.get_or_add_dLbl_for_point st i self = (Ok p, self') ->
  exists block',
    self' = set_children (block' ++ rest) self /\
    Forall (fun c => has_tag "c:dLbl" c = true) block' /\
    p < List.length block'.
Proof.
  intros E Hblock Hrest H. apply get_or_add_ok_shape in H.
  destruct H as [[Hp ->]|(_ & s & pre & post & _ & Ecs & -> & -> & Hadj)].
  - exists block. rewrite <- E, set_children_children.
    split; [reflexivity|]. split; [assumption|].
    apply first_index_split in Hp.
    destruct Hp as (pre & d & post & Ecs & <- & Hd & _).
    apply andb_prop in Hd as [Hd _]. rewrite E in Ecs. symmetry in Ecs.
    destruct (app_split_at _ pre post d block rest Ecs Hd Hrest)
      as (b2 & -> & _).
    rewrite length_app. cbn. lia.
  - assert (has_tag "c:dLbl" (mk_dLbl s) = true) as Hnew by reflexivity.
    rewrite E in Ecs. symmetry in Ecs.
    destruct Hadj as [[-> Hno]|[(d & post' & -> & Hd)|(pre' & d & -> & Hd)]].
    + cbn [app] in Ecs. subst post. exists (mk_dLbl s :: block).
      split; [reflexivity|]. split; [now constructor|]. cbn. lia.
    + destruct (app_split_at _ pre post' d block rest Ecs Hd Hrest)
        as (b2 & -> & ->).
      exists (pre ++ mk_dLbl s :: d :: b2).
      split; [now rewrite <- app_assoc|]. split.
      * apply Forall_app in Hblock as [H1 H2]. apply Forall_app.
        split; [assumption|now constructor].
      * rewrite length_app. cbn. lia.
    + rewrite <- app_assoc in Ecs. cbn [app] in Ecs.
      destruct (app_split_at _ pre' post d block rest Ecs Hd Hrest)
        as (b2 & -> & ->).
      exists (pre' ++ d :: mk_dLbl s :: b2).
      split; [now rewrite <- !app_assoc|]. split.
      * apply Forall_app in Hblock as [H1 H2]. apply Forall_app.
        split; [assumption|].
        inversion H2; subst. constructor; [assumption|now constructor].
      * rewrite !length_app. cbn. lia.
Qed.

(** X5. The [c:dLbl] children stay first.  When the children of the
    collection are [c:dLbl] elements followed by other elements, a
    returning [get_or_add_dLbl_for_point] leaves them so: the other
    elements are the same, in the same order, after all [c:dLbl]
    children, and the returned child is among the [c:dLbl] ones. *)
Theorem dLbls_stay_first
  (st : simple_type) (i : Z) (self : element) (p : nat) (self' : element)
  (block rest : list element) :
  children self = block ++ rest ->
  Forall (fun c => has_tag "c:dLbl" c = true) block ->
  (forall c, In c rest -> has_tag "c:dLbl" c = false) ->
  CT_DLbls.get_or_add_dLbl_for_point st i self = (Ok p, self') ->
  exists block',
    self' = set_children (block' ++ rest) self /\
    Forall (fun c => has_tag "c:dLbl" c = true) block' /\
    p < List.length block'.
Proof. apply get_or_add_keeps_dLbls_first. Qed.

Lemma dLbls_stay_first_witness :
  exists block',
    set_children
      [mk_dLbl "2"; mk_dLbl "5"; mk_dLbl "7"; Element "c:numFmt" [] []]
      dLbls_2_5 =
    set_children (block' ++ [Element "c:numFmt" [] []]) dLbls_2_5 /\
    Forall (fun c => has_tag "c:dLbl" c = true) block' /\
    2 < List.length block'.
Proof.
  apply (dLbls_stay_first decimal 7 dLbls_2_5 2 _
           [mk_dLbl "2"; mk_dLbl "5"] [Element "c:numFmt" [] []]).
  - reflexivity.
  - repeat constructor.
  - intros c [<-|[]]. reflexivity.
  - reflexivity.
Defined.

(** ** Lookups after a call *)

Lemma fmt_d_inj (a b : Z) : fmt_d a = fmt_d b -> a = b.
Proof.
  unfold fmt_d. intros H. apply DecimalZ.to_int_inj.
  assert (forall z, Z.to_int z <> Decimal.Pos Decimal.Nil /\
                    Z.to_int z <> Decimal.Neg Decimal.Nil) as Hnil.
  { intros [|q|q]; cbn; split; try discriminate.
    - intros [= E]. now apply (Unsigned.to_uint_nonnil q).
    - intros [= E]. now apply (Unsigned.to_uint_nonnil q). }
  apply (f_equal NilZero.int_of_string) in H.
  rewrite !NilZero.isi in H by apply Hnil. now injection H.
Qed.

Lemma first_index_app {A} (f : A -> bool) (a b : list A) :
  first_index f (a ++ b) =
  match first_index f a with
  | Some q => Some q
  | None => option_map (Nat.add (List.length a)) (first_index f b)
  end.
Proof.
  induction a as [|x a IH]; cbn.
  - now destruct (first_index f b).
  - destruct (f x); [reflexivity|]. rewrite IH.
    destruct (first_index f a); [reflexivity|].
    now destruct (first_index f b).
Qed.

Lemma first_index_lt {A} (f : A -> bool) (l : list A) (q : nat) :
  first_index f l = Some q -> q < List.length l.
Proof.
  intros H. apply first_index_split in H.
  destruct H as (pre & d & post & -> & <- & _). rewrite length_app. cbn. lia.
Qed.

Lemma get_dLbl_for_point_found (j : Z) (self : element) (q : nat) :
  first_index (has_point_index j) (children self) = Some q ->
  CT_DLbls.get_dLbl_for_point j self = (Ok (Some q), self).
Proof.
  intros E. unfold CT_DLbls.get_dLbl_for_point.
  pose proof (xpath_dLbl_idx_cases j self) as X.
  destruct (CT_DLbls.xpath_dLbl_idx j self) as [|[r c] l]; [congruence|].
  destruct X as [X _]. congruence.
Qed.

Lemma get_dLbl_for_point_missing (j : Z) (self : element) :
  first_index (has_point_index j) (children self) = None ->
  CT_DLbls.get_dLbl_for_point j self = (Ok None, self).
Proof.
  intros E. unfold CT_DLbls.get_dLbl_for_point.
  pose proof (xpath_dLbl_idx_cases j self) as X.
  destruct (CT_DLbls.xpath_dLbl_idx j self) as [|[r c] l]; [reflexivity|].
  destruct X as [X _]. congruence.
Qed.

(** X6. A call for [i] does not disturb the lookup of another index [j]
    (the codec writing [i] in decimal when it writes it): an index not
    found before is not found after, and one found before is found after
    as the same element, at the same position or one further. *)
Theorem other_index_lookup_kept
  (st : simple_type) (i j : Z) (self : element) (p : nat) (self' : element) :
  j <> i ->
  (forall s, to_xml st i = Some s -> s = fmt_d i) ->
  CT_DLbls.get_or_add_dLbl_for_point st i self = (Ok p, self') ->
  match first_index (has_point_index j) (children self) with
  | None => CT_DLbls.get_dLbl_for_point j self' = (Ok None, self')
  | Some q =>
      exists q',
        CT_DLbls.get_dLbl_for_point j self' = (Ok (Some q'), self') /\
        nth_error (children self') q' = nth_error (children self) q /\
        (q' = q \/ q' = S q)
  end.
Proof.
  intros Hji Hdec H. apply get_or_add_ok_shape in H.
  destruct H as [[_ ->]|(_ & s & pre & post & Hs & Ecs & -> & -> & _)].
  - destruct (first_index (has_point_index j) (children self)) as [q|] eqn:E.
    + exists q. split; [now apply get_dLbl_for_point_found|auto].
    + now apply get_dLbl_for_point_missing.
  - assert (has_point_index j (mk_dLbl s) = false) as Hnew.
    { rewrite has_point_index_mk, (Hdec s Hs).
      apply String.eqb_neq. intros E. apply fmt_d_inj in E. congruence. }
    rewrite Ecs, first_index_app.
    destruct (first_index (has_point_index j) pre) as [q|] eqn:Epre.
    + exists q. split; [|split; [|now left]].
      * apply get_dLbl_for_point_found. cbn [children set_children].
        now rewrite first_index_app, Epre.
      * cbn [children set_children]. apply first_index_lt in Epre.
        now rewrite !nth_error_app1.
    + destruct (first_index (has_point_index j) post) as [r|] eqn:Epost;
        cbn [option_map].
      * exists (S (List.length pre + r)). split; [|split; [|now right]].
        -- apply get_dLbl_for_point_found. cbn [children set_children].
           rewrite first_index_app, Epre. cbn [first_index].
           rewrite Hnew, Epost. cbn. now rewrite Nat.add_succ_r.
        -- cbn [children set_children].
           rewrite !nth_error_app2 by lia.
           replace (S (List.length pre + r) - List.length pre) with (S r)
             by lia.
           replace (List.length pre + r - List.length pre) with r by lia.
           reflexivity.
      * apply get_dLbl_for_point_missing. cbn [children set_children].
        rewrite first_index_app, Epre. cbn [first_index].
        now rewrite Hnew, Epost.
Qed.

Lemma other_index_lookup_kept_witness :
  exists q',
    CT_DLbls.get_dLbl_for_point 5
      (set_children
         [mk_dLbl "2"; mk_dLbl "3"; mk_dLbl "5"; Element "c:numFmt" [] []]
         dLbls_2_5) =
    (Ok (Some q'),
     set_children
       [mk_dLbl "2"; mk_dLbl "3"; mk_dLbl "5"; Element "c:numFmt" [] []]
       dLbls_2_5) /\
    nth_error
      [mk_dLbl "2"; mk_dLbl "3"; mk_dLbl "5"; Element "c:numFmt" [] []] q' =
    nth_error (children dLbls_2_5) 1 /\
    (q' = 1 \/ q' = 2).
Proof.
  refine (other_index_lookup_kept decimal 3 5 dLbls_2_5 1
            (set_children
               [mk_dLbl "2"; mk_dLbl "3"; mk_dLbl "5";
                Element "c:numFmt" [] []] dLbls_2_5) _ _ eq_refl).
  - discriminate.
  - intros s [= <-]. reflexivity.
Defined.

(** X7. Lookup after insertion.  The position [get_or_add_dLbl_for_point]
    returns for [i] is the one [get_dLbl_for_point] returns for [i] on the
    resulting collection (the codec writing [i] in decimal when it writes
    it). *)
Theorem lookup_finds_what_get_or_add_returned
  (st : simple_type) (i : Z) (self : element) (p : nat) (self' : element) :
  (forall s, to_xml st i = Some s -> s = fmt_d i) ->
  CT_DLbls.get_or_add_dLbl_for_point st i self = (Ok p, self') ->
  CT_DLbls.get_dLbl_for_point i self' = (Ok (Some p), self').
Proof.
  intros Hdec H. apply get_or_add_ok_shape in H.
  destruct H as [[Hp ->]|(Habs & s & pre & post & Hs & Ecs & -> & -> & _)].
  - now apply get_dLbl_for_point_found.
  - apply get_dLbl_for_point_found. cbn [children set_children].
    rewrite first_index_app.
    rewrite Ecs, first_index_app in Habs.
    destruct (first_index (has_point_index i) pre); [discriminate|].
    cbn [first_index]. rewrite has_point_index_mk, (Hdec s Hs).
    rewrite String.eqb_refl. cbn. now rewrite Nat.add_0_r.
Qed.

Lemma lookup_finds_what_get_or_add_returned_witness :
  CT_DLbls.get_dLbl_for_point 3
    (set_children
       [mk_dLbl "2"; mk_dLbl "3"; mk_dLbl "5"; Element "c:numFmt" [] []]
       dLbls_2_5) =
  (Ok (Some 1),
   set_children
     [mk_dLbl "2"; mk_dLbl "3"; mk_dLbl "5"; Element "c:numFmt" [] []]
     dLbls_2_5).
Proof.
  apply (lookup_finds_what_get_or_add_returned decimal 3 dLbls_2_5 1 _).
  - intros s [= <-]. reflexivity.
  - reflexivity.
Defined.

(** X8. Lookup is by the text of the index and ordering by its value.
    When no child carries the decimal text of [i], the call creates a
    [c:dLbl] whatever the point indexes of the children read as: the
    number of [c:dLbl] children whose index reads as [i] grows by one, so a
    child whose text is another spelling of [i] gets a twin. *)
Theorem creation_adds_one_reading
  (st : simple_type) (i : Z) (self : element) (s : string) :
  first_index (has_point_index i) (children self) = None ->
  to_xml st i = Some s -> from_xml st s = Some i ->
  (forall c, In c (children self) -> idx_readable st c) ->
  exists p self',
    CT_DLbls.get_or_add_dLbl_for_point st i self = (Ok p, self') /\
    count_reads st i self' = S (count_reads st i self).
Proof.
  intros Habs Hs Hback Hr.
  rewrite (get_or_add_absent st i self Habs).
  destruct (insert_total st i self s Hs Hr) as (pre & post & Ecs & ->).
  exists (List.length pre), (set_children (pre ++ mk_dLbl s :: post) self).
  split; [reflexivity|].
  assert (has_tag "c:dLbl" (mk_dLbl s) &&
          match CT_DLbl.idx_val st (mk_dLbl s) with
          | Ok v => (v =? i)%Z
          | Raise _ => false
          end = true) as Hnew
    by (rewrite idx_val_mk, Hback, Z.eqb_refl; reflexivity).
  unfold count_reads. cbn [children set_children].
  rewrite Ecs, !filter_app. cbn [filter]. rewrite Hnew.
  rewrite !length_app. cbn [List.length]. lia.
Qed.

Lemma creation_adds_one_reading_witness :
  exists p self',
    CT_DLbls.get_or_add_dLbl_for_point decimal 5 dLbls_05 = (Ok p, self') /\
    count_reads decimal 5 self' = S (count_reads decimal 5 dLbls_05).
Proof.
  apply (creation_adds_one_reading decimal 5 dLbls_05 "5"); try reflexivity.
  intros c [<-|[]] _. now exists 5%Z.
Defined.

(** The text 05 reads as 5 and is not found for 5: a second [c:dLbl]
    reading 5 is put after it. *)
Example twin_of_05 :
  CT_DLbls.get_or_add_dLbl_for_point decimal 5 dLbls_05 =
  (Ok 1, set_children [mk_dLbl "05"; mk_dLbl "5"] dLbls_05) /\
  CT_DLbls.idx_vals decimal
    (CT_DLbls.dLbl_lst (set_children [mk_dLbl "05"; mk_dLbl "5"] dLbls_05)) =
  Ok [5; 5]%Z.
Proof. split; reflexivity. Qed.

(** ** The order of the calls does not matter *)

Lemma sorted_perm_eq (l1 : list Z) :
  forall l2,
  StronglySorted Z.lt l1 -> StronglySorted Z.lt l2 -> Permutation l1 l2 ->
  l1 = l2.
Proof.
  induction l1 as [|a l1 IH]; intros l2 H1 H2 Hp.
  - apply Permutation_nil in Hp. now subst.
  - destruct l2 as [|b l2].
    + apply Permutation_sym, Permutation_nil in Hp. discriminate.
    + inversion H1 as [|? ? H1' Ha]; subst.
      inversion H2 as [|? ? H2' Hb]; subst.
      assert (a = b) as ->.
      { pose proof (Permutation_in a Hp (or_introl eq_refl)) as Hain.
        pose proof (Permutation_in b (Permutation_sym Hp) (or_introl eq_refl))
          as Hbin.
        destruct Hain as [->|Hain]; [reflexivity|].
        destruct Hbin as [->|Hbin]; [reflexivity|].
        pose proof (proj1 (Forall_forall _ _) Hb a Hain).
        pose proof (proj1 (Forall_forall _ _) Ha b Hbin). lia. }
      f_equal. apply IH; auto. now apply Permutation_cons_inv in Hp.
Qed.

Lemma filter_all {A} (f : A -> bool) (l : list A) :
  Forall (fun x => f x = true) l -> filter f l = l.
Proof.
  induction 1 as [|x l Hx _ IH]; cbn; [reflexivity|]. now rewrite Hx, IH.
Qed.

Lemma calls_keep_dLbls_first (st : simple_type) (idxs : list Z) :
  forall (self : element) (block rest : list element)
         (ps : list nat) (self' : element),
  children self = block ++ rest ->
  Forall (fun c => has_tag "c:dLbl" c = true) block ->
  (forall c, In c rest -> has_tag "c:dLbl" c = false) ->
  CT_DLbls.calls st idxs self = (Ok ps, self') ->
  exists block',
    self' = set_children (block' ++ rest) self /\
    Forall (fun c => has_tag "c:dLbl" c = true) block'.
Proof.
  induction idxs as [|i idxs IH]; intros self block rest ps self' E Hb Hr H.
  - cbn in H. injection H as _ <-. exists block.
    now rewrite <- E, set_children_children.
  - cbn [CT_DLbls.calls] in H. unfold bind at 1 in H.
    destruct (CT_DLbls.get_or_add_dLbl_for_point st i self)
      as [[p|e] self1] eqn:H1; [|discriminate].
    destruct (get_or_add_keeps_dLbls_first st i self p self1 block rest
                E Hb Hr H1) as (b1 & -> & Hb1).
    destruct Hb1 as [Hb1 _].
    unfold bind in H.
    destruct (CT_DLbls.calls st idxs (set_children (b1 ++ rest) self))
      as [[qs|e] self2] eqn:H2; [|discriminate].
    injection H as _ <-.
    destruct (IH (set_children (b1 ++ rest) self) b1 rest qs self2
                eq_refl Hb1 Hr H2) as (b2 & -> & Hb2).
    now exists b2.
Qed.

Lemma calls_final_tree (st : simple_type) (idxs : list Z) (self : element) :
  (forall c, In c (children self) -> has_tag "c:dLbl" c = false) ->
  NoDup idxs -> Forall (codec_ok st) idxs ->
  exists ps vs,
    CT_DLbls.calls st idxs self =
    (Ok ps,
     set_children (map (fun v => mk_dLbl (fmt_d v)) vs ++ children self) self)
    /\ StronglySorted Z.lt vs /\ Permutation idxs vs.
Proof.
  intros Hno Hnd Hok.
  destruct (calls_ascending st idxs self [])
    as (ps & self' & vs & Hcalls & Hb & Hs & _ & Hp); auto.
  - unfold dLbls_built. now rewrite (filter_none _ _ Hno).
  - constructor.
  - rewrite app_nil_r in Hp.
    destruct (calls_keep_dLbls_first st idxs self [] (children self) ps self'
                eq_refl (Forall_nil _) Hno Hcalls) as (b & -> & Hball).
    unfold dLbls_built in Hb. cbn [children set_children] in Hb.
    rewrite filter_app, (filter_all _ _ Hball), (filter_none _ _ Hno),
      app_nil_r in Hb.
    subst b. now exists ps, vs.
Qed.

(** X9. The order of the calls does not matter.  From a collection with
    no [c:dLbl] child, calls for the same distinct indexes in two orders
    both return and leave the same collection: the [c:dLbl] elements
    built for the indexes, in ascending order, followed by the former
    children. *)
Theorem call_order_does_not_matter
  (st : simple_type) (idxs1 idxs2 : list Z) (self : element) :
  (forall c, In c (children self) -> has_tag "c:dLbl" c = false) ->
  NoDup idxs1 -> Permutation idxs1 idxs2 ->
  Forall (codec_ok st) idxs1 ->
  exists ps1 ps2 vs,
    CT_DLbls.calls st idxs1 self =
    (Ok ps1,
     set_children (map (fun v => mk_dLbl (fmt_d v)) vs ++ children self) self)
    /\
    CT_DLbls.calls st idxs2 self =
    (Ok ps2,
     set_children (map (fun v => mk_dLbl (fmt_d v)) vs ++ children self) self)
    /\ StronglySorted Z.lt vs /\ Permutation idxs1 vs.
Proof.
  intros Hno Hnd Hp Hok.
  destruct (calls_final_tree st idxs1 self Hno Hnd Hok)
    as (ps1 & vs1 & H1 & Hs1 & Hp1).
  destruct (calls_final_tree st idxs2 self Hno)
    as (ps2 & vs2 & H2 & Hs2 & Hp2).
  - now apply (Permutation_NoDup Hp).
  - apply Forall_forall. intros x Hx.
    apply (proj1 (Forall_forall _ _) Hok).
    now apply (Permutation_in _ (Permutation_sym Hp)).
  - assert (vs1 = vs2) as <-.
    { apply sorted_perm_eq; auto.
      etransitivity; [apply Permutation_sym, Hp1|].
      etransitivity; [exact Hp|exact Hp2]. }
    now exists ps1, ps2, vs1.
Qed.

Lemma call_order_does_not_matter_witness :
  exists ps1 ps2 vs,
    CT_DLbls.calls decimal [3; 1; 2]%Z CT_DLbls.new_default =
    (Ok ps1,
     set_children (map (fun v => mk_dLbl (fmt_d v)) vs ++
                   children CT_DLbls.new_default) CT_DLbls.new_default)
    /\
    CT_DLbls.calls decimal [2; 3; 1]%Z CT_DLbls.new_default =
    (Ok ps2,
     set_children (map (fun v => mk_dLbl (fmt_d v)) vs ++
                   children CT_DLbls.new_default) CT_DLbls.new_default)
    /\ StronglySorted Z.lt vs /\ Permutation [3; 1; 2]%Z vs.
Proof.
  apply (call_order_does_not_matter decimal [3; 1; 2]%Z [2; 3; 1]%Z
           CT_DLbls.new_default).
  - intros c Hc. cbn in Hc.
    repeat (destruct Hc as [<-|Hc]; [reflexivity|]). contradiction.
  - repeat constructor; cbn; intuition discriminate.
  - apply perm_trans with (l' := [3; 2; 1]%Z).
    + apply perm_skip, perm_swap.
    + apply perm_trans with (l' := [2; 3; 1]%Z);
        [apply perm_swap|apply Permutation_refl].
  - repeat constructor.
Defined.

(** ** What [get_or_add_tx_rich] makes of the data label *)

Lemma replace_child_split (pre post : list element) (d c : element)
  (e : element) :
  children e = pre ++ d :: post ->
  replace_child (List.length pre) c e = set_children (pre ++ c :: post) e.
Proof.
  intros E. unfold replace_child.
  now rewrite E, firstn_length_app, skipn_S_length_app.
Qed.

Lemma first_successor_from_nil (cs : list element) :
  forall n, first_successor_from n [] cs = None.
Proof. induction cs as [|c cs IH]; intros n; cbn; auto. Qed.

Lemma find_existsb (t : string) (e : element) :
  existsb (has_tag t) (children e) =
  match find t e with Some _ => true | None => false end.
Proof.
  destruct (find t e) as [[p c]|] eqn:E.
  - apply find_some in E as (pre & post & E & _ & _ & Hc).
    apply existsb_exists. exists c. split; [|assumption].
    rewrite E. apply in_or_app. right. now left.
  - pose proof (find_none _ _ E) as Hno.
    destruct (existsb (has_tag t) (children e)) eqn:X; [|reflexivity].
    apply existsb_exists in X as (c & Hc & Ht). now rewrite (Hno c Hc) in Ht.
Qed.

(** The two steps on the [c:tx] itself. *)
Lemma tx_steps (rich_body : list element) (tx : element) :
  exists q,
    (on_tx <- CT_DLbl._remove_strRef ;; CT_DLbl.get_or_add_rich rich_body) tx =
    (Ok q, rich_tx rich_body tx).
Proof.
  unfold bind, CT_DLbl._remove_strRef, remove_all, modify.
  unfold CT_DLbl.get_or_add_rich, get_or_add, rich_tx. cbn [tag].
  set (kept := filter (fun c => negb (has_tag "c:strRef" c)) (children tx)).
  pose proof (find_existsb "c:rich" (set_children kept tx)) as X.
  cbn [children set_children] in X. rewrite X. clear X.
  destruct (find "c:rich" (set_children kept tx)) as [[q c]|].
  - now exists q.
  - unfold insert_element_before. cbn [children set_children].
    rewrite first_successor_from_nil. now exists (List.length kept).
Qed.

Lemma on_child_twice (rich_body : list element) (e : element)
  (pre post : list element) (tx : element) :
  children e = pre ++ tx :: post ->
  (on_child (List.length pre) CT_DLbl._remove_strRef ;;;
   on_child (List.length pre) (CT_DLbl.get_or_add_rich rich_body) ;;;
   ret (List.length pre)) e =
  (Ok (List.length pre), set_children (pre ++ rich_tx rich_body tx :: post) e).
Proof.
  intros E. destruct (tx_steps rich_body tx) as (q & Hq).
  unfold bind in Hq |- *. unfold CT_DLbl._remove_strRef, remove_all, modify in *.
  rewrite (on_child_split _ e pre post tx E). cbn [fst snd].
  set (tx1 := set_children _ tx) in *.
  rewrite (on_child_split (CT_DLbl.get_or_add_rich rich_body)
             (set_children (pre ++ tx1 :: post) e) pre post tx1 eq_refl).
  rewrite Hq. reflexivity.
Qed.

Lemma insert_position_only (new1 new2 : element) (succ : list string)
  (e : element) :
  exists pre post,
    children e = pre ++ post /\
    insert_element_before new1 succ e =
    (List.length pre, set_children (pre ++ new1 :: post) e) /\
    insert_element_before new2 succ e =
    (List.length pre, set_children (pre ++ new2 :: post) e).
Proof.
  unfold insert_element_before.
  destruct (first_successor_from 0 succ (children e)) as [p|] eqn:E.
  - apply first_successor_from_lt in E. cbn in E.
    exists (firstn p (children e)), (skipn p (children e)).
    rewrite firstn_skipn, length_firstn, Nat.min_l by lia. now repeat split.
  - exists (children e), []. rewrite app_nil_r. now repeat split.
Qed.

(** The state after [get_or_add_tx_rich], around the [c:tx] it returns. *)
Lemma get_or_add_tx_rich_shape (rich_body : list element) (self : element) :
  exists pre tx0 post,
    CT_DLbl.get_or_add_tx_rich rich_body self =
    (Ok (List.length pre),
     set_children (pre ++ rich_tx rich_body tx0 :: post) self) /\
    (forall x, In x pre -> has_tag "c:tx" x = false) /\
    has_tag "c:tx" tx0 = true /\
    ((find "c:tx" self = Some (List.length pre, tx0) /\
      children self = pre ++ tx0 :: post) \/
     (find "c:tx" self = None /\ children self = pre ++ post /\
      tx0 = OxmlElement "c:tx" /\
      insert_element_before (rich_tx rich_body tx0)
        (successors CT_DLbl.tx) self =
      (List.length pre,
       set_children (pre ++ rich_tx rich_body tx0 :: post) self))).
Proof.
  unfold CT_DLbl.get_or_add_tx_rich, bind at 1.
  unfold CT_DLbl.get_or_add_tx, get_or_add. cbn [tag OxmlElement].
  destruct (find "c:tx" self) as [[p tx]|] eqn:E.
  - apply find_some in E as (pre & post & Ecs & -> & Hpre & Ht).
    exists pre, tx, post. split; [now apply on_child_twice|].
    split; [assumption|]. split; [assumption|]. now left.
  - pose proof (find_none _ _ E) as Hno.
    destruct (insert_position_only (OxmlElement "c:tx")
                (rich_tx rich_body (OxmlElement "c:tx"))
                (successors CT_DLbl.tx) self)
      as (pre & post & Ecs & -> & Hins).
    exists pre, (OxmlElement "c:tx"), post. split.
    { rewrite (on_child_twice rich_body
                 (set_children (pre ++ OxmlElement "c:tx" :: post) self)
                 pre post (OxmlElement "c:tx") eq_refl).
      now destruct self. }
    split; [intros x Hx; apply Hno; rewrite Ecs; apply in_or_app; now left|].
    split; [reflexivity|]. right. now repeat split.
Qed.

(** X10. What [get_or_add_tx_rich] changes.  When the data label has a
    [c:tx], only that child changes: it keeps its tag, its attributes and
    its children other than [c:strRef] in their order, any [c:rich]
    included, and gets a new [c:rich] as last child when it had none.  When
    it has no [c:tx], a [c:tx] holding one new [c:rich] is put where the
    placement rule of [c:tx] says.  The other children of the data label
    are untouched. *)
Theorem get_or_add_tx_rich_effect (rich_body : list element) (self : element) :
  match find "c:tx" self with
  | Some (p, tx) =>
      CT_DLbl.get_or_add_tx_rich rich_body self =
      (Ok p, replace_child p (rich_tx rich_body tx) self)
  | None =>
      CT_DLbl.get_or_add_tx_rich rich_body self =
      (Ok (fst (insert_element_before
                  (Element "c:tx" [] [Element "c:rich" [] rich_body])
                  (successors CT_DLbl.tx) self)),
       snd (insert_element_before
              (Element "c:tx" [] [Element "c:rich" [] rich_body])
              (successors CT_DLbl.tx) self))
  end.
Proof.
  destruct (get_or_add_tx_rich_shape rich_body self)
    as (pre & tx0 & post & Hcall & _ & _ & [[Hf Ecs]|(Hf & _ & -> & Hins)]).
  - rewrite Hf, Hcall. now rewrite (replace_child_split pre post tx0).
  - rewrite Hf, Hcall.
    change (rich_tx rich_body (OxmlElement "c:tx"))
      with (Element "c:tx" [] [Element "c:rich" [] rich_body]) in Hins.
    now rewrite Hins.
Qed.

Lemma rich_tx_idempotent (rich_body : list element) (tx : element) :
  rich_tx rich_body (rich_tx rich_body tx) = rich_tx rich_body tx.
Proof.
  unfold rich_tx at 1.
  set (f := fun c => negb (has_tag "c:strRef" c)).
  assert (filter f (children (rich_tx rich_body tx)) =
          children (rich_tx rich_body tx)) as Hkept.
  { unfold rich_tx. fold f. cbn [children set_children].
    destruct (existsb (has_tag "c:rich") (filter f (children tx))).
    - apply filter_all. apply Forall_forall. intros x Hx.
      now apply filter_In in Hx.
    - rewrite filter_app. cbn. f_equal. apply filter_all.
      apply Forall_forall. intros x Hx. now apply filter_In in Hx. }
  rewrite Hkept.
  assert (existsb (has_tag "c:rich") (children (rich_tx rich_body tx)) = true)
    as ->.
  { unfold rich_tx. fold f. cbn [children set_children].
    destruct (existsb (has_tag "c:rich") (filter f (children tx))) eqn:X;
      [assumption|].
    rewrite existsb_app. cbn. now rewrite orb_true_r. }
  apply set_children_children.
Qed.

(** X11. [get_or_add_tx_rich] is idempotent: a second call returns the
    same [c:tx] and leaves the data label as the first call left it. *)
Theorem get_or_add_tx_rich_idempotent
  (rich_body : list element) (self : element) :
  exists p self1,
    CT_DLbl.get_or_add_tx_rich rich_body self = (Ok p, self1) /\
    CT_DLbl.get_or_add_tx_rich rich_body self1 = (Ok p, self1).
Proof.
  destruct (get_or_add_tx_rich_shape rich_body self)
    as (pre & tx0 & post & Hcall & Hpre & Ht & _).
  set (self1 := set_children (pre ++ rich_tx rich_body tx0 :: post) self)
    in *.
  exists (List.length pre), self1. split; [assumption|].
  assert (find "c:tx" self1 =
          Some (List.length pre, rich_tx rich_body tx0)) as Hf
    by (apply (find_split "c:tx" self1 pre post); auto).
  destruct (get_or_add_tx_rich_shape rich_body self1)
    as (pre' & tx' & post' & Hcall' & _ & _ &
        [[Hf' Ecs']|(Hf' & _)]); [|congruence].
  rewrite Hf in Hf'. injection Hf' as Hlen <-.
  rewrite Hcall', <- Hlen. f_equal.
  rewrite rich_tx_idempotent, <- Ecs'. apply set_children_children.
Qed.

Lemma remove_tx_rich_at (self : element) (p : nat) :
  first_index is_tx_rich (children self) = Some p ->
  CT_DLbl.remove_tx_rich self = (Ok tt, remove p self).
Proof.
  intros E. unfold CT_DLbl.remove_tx_rich.
  pose proof (xpath_tx_rich_cases self) as X.
  destruct (xpath "c:tx" _ self) as [|[q c] r]; [congruence|].
  destruct X as [X _]. congruence.
Qed.

(** X12. [remove_tx_rich] undoes [get_or_add_tx_rich]: after the two
    calls the [c:tx] the first one returned is gone and the other children
    are as they were, so a data label that had no [c:tx] is back to what it
    was. *)
Theorem remove_tx_rich_after_get_or_add
  (rich_body : list element) (self : element) :
  exists p self1,
    CT_DLbl.get_or_add_tx_rich rich_body self = (Ok p, self1) /\
    CT_DLbl.remove_tx_rich self1 = (Ok tt, remove p self1) /\
    count_tag "c:tx" (remove p self1) = count_tag "c:tx" self1 - 1 /\
    match find "c:tx" self with
    | Some (q, _) => remove p self1 = remove q self
    | None => remove p self1 = self
    end.
Proof.
  destruct (get_or_add_tx_rich_shape rich_body self)
    as (pre & tx0 & post & Hcall & Hpre & Ht & Hcases).
  set (T := rich_tx rich_body tx0) in *.
  set (self1 := set_children (pre ++ T :: post) self) in *.
  assert (has_tag "c:tx" T = true) as HtT by exact Ht.
  assert (is_tx_rich T = true) as Hrich.
  { unfold is_tx_rich. rewrite HtT. cbn [andb]. unfold has_child, T, rich_tx.
    cbn [children set_children].
    set (kept := filter _ (children tx0)).
    destruct (existsb (has_tag "c:rich") kept) eqn:X.
    - apply existsb_exists in X as (c & Hc & Hct).
      apply existsb_exists. exists c. now rewrite Hct.
    - rewrite existsb_app. cbn. now rewrite orb_true_r. }
  assert (first_index is_tx_rich (children self1) = Some (List.length pre))
    as Hfirst.
  { apply first_index_split. exists pre, T, post. repeat split; auto.
    intros x Hx. unfold is_tx_rich. now rewrite (Hpre x Hx). }
  assert (remove (List.length pre) self1 = set_children (pre ++ post) self)
    as Hrem by (now rewrite (remove_split pre post T self1 eq_refl)).
  exists (List.length pre), self1.
  split; [assumption|]. split; [now apply remove_tx_rich_at|]. split.
  { rewrite Hrem. unfold count_tag, self1. cbn [children set_children].
    rewrite !filter_app. cbn [filter]. rewrite HtT.
    rewrite !length_app. cbn [List.length]. lia. }
  destruct Hcases as [[Hf Ecs]|(Hf & Ecs & _)]; rewrite Hf.
  - now rewrite Hrem, (remove_split pre post tx0 self Ecs).
  - now rewrite Hrem, <- Ecs, set_children_children.
Qed.

(** ** Writing and reading the point index *)

Lemma assoc_assoc_set (name value : string) (l : list (string * string)) :
  assoc name (assoc_set name value l) = Some value.
Proof.
  induction l as [|[k v] l IH]; cbn.
  - now rewrite String.eqb_refl.
  - destruct (k =? name) eqn:E; cbn; now rewrite E.
Qed.

(** X13. The point index written is the point index read.  On a [c:dLbl]
    that has a [c:idx] child, [idx.val = v] followed by [idx_val] gives [v]
    when the codec writes [v] as a text it reads back as [v], whatever
    [val] the [c:idx] had; only the first [c:idx] child is changed, and
    only its [val].  On a [c:dLbl] without [c:idx], writing and reading
    both raise [SchemaViolation]. *)
Theorem idx_val_reads_what_was_set
  (st : simple_type) (v : Z) (s : string) (self : element) :
  to_xml st v = Some s -> from_xml st s = Some v ->
  match find "c:idx" self with
  | Some (p, idx) =>
      CT_DLbl.set_idx_val st v self =
      Ok (replace_child p (set "val" s idx) self) /\
      CT_DLbl.idx_val st (replace_child p (set "val" s idx) self) = Ok v
  | None =>
      CT_DLbl.set_idx_val st v self = Raise SchemaViolation /\
      CT_DLbl.idx_val st self = Raise SchemaViolation
  end.
Proof.
  intros Hs Hback. unfold CT_DLbl.set_idx_val.
  destruct (find "c:idx" self) as [[p idx]|] eqn:E.
  - rewrite Hs. split; [reflexivity|].
    apply find_some in E as (pre & post & Ecs & -> & Hpre & Ht).
    rewrite (replace_child_split pre post idx _ self Ecs).
    unfold CT_DLbl.idx_val.
    rewrite (find_split "c:idx"
               (set_children (pre ++ set "val" s idx :: post) self)
               pre post (set "val" s idx) eq_refl Hpre Ht).
    unfold get, set. cbn [attrib]. now rewrite assoc_assoc_set, Hback.
  - split; [reflexivity|]. unfold CT_DLbl.idx_val. now rewrite E.
Qed.

Lemma idx_val_reads_what_was_set_witness :
  CT_DLbl.set_idx_val decimal 7 (mk_dLbl "2") = Ok (mk_dLbl "7") /\
  CT_DLbl.idx_val decimal (mk_dLbl "7") = Ok 7%Z.
Proof.
  exact (idx_val_reads_what_was_set decimal 7 "7" (mk_dLbl "2")
           eq_refl eq_refl).
Defined.
